(** * The store-API series client of obslytics (pkg/series/storeapi)

    A shallow embedding of [storeapi.go]: the TLS client configuration
    ([newCustomClientConfig]), the gRPC dial options ([InsecureClient]),
    [Series.Read] and the cursor it returns ([iterator.Next], [At], [Err],
    [Close]).

    Go values are modelled as follows.
    - A pointer, interface or [error] that may be [nil] is an [option];
      [None] is [nil].  A Go result pair [(v, err)] is a Rocq pair, so that
      [(nil, nil)] can be written down.
    - A nil slice is the empty list.
    - What the libraries and the outside world answer (file contents, the
      certificate parser, the dialer, the remote store) is collected in an
      environment [Env]; what the program does to the outside world (open
      connections, log lines, calls on the wire) is recorded in a [World].
    - A function body is a computation that threads the [World], may leave
      through an early [return] and may panic. *)

From stdpp Require Import base option list strings gmap.
From Stdlib Require Import ZArith.

Local Open Scope string_scope.
Local Open Scope list_scope.

(** ** Errors: [error], [io.EOF] and github.com/pkg/errors *)

Inductive error : Type :=
| io_EOF
| errors_New (msg : string)
| withMessage (cause : error) (msg : string)
| foreign (msg : string).

#[global] Instance error_eq_dec : EqDecision error.
Proof. solve_decision. Defined.

(** [errors.Wrap(err, msg)]: nil stays nil. *)
Definition errors_Wrap (err : option error) (msg : string) : option error :=
  match err with
  | None => None
  | Some e => Some (withMessage e msg)
  end.

(** [errors.Wrapf(err, "storepb.Series against %v", x)]. *)
Definition errors_Wrapf (err : option error) (format : string) (arg : string) : option error :=
  errors_Wrap err (format +:+ arg).

(** [errors.Cause]. *)
Fixpoint Cause (e : error) : error :=
  match e with
  | withMessage c _ => Cause c
  | _ => e
  end.

(** [err != nil]. *)
Definition notnil {A} (p : option A) : bool :=
  match p with
  | Some _ => true
  | None => false
  end.

(** [s != ""]. *)
Definition nonempty (s : string) : bool := bool_decide (s ≠ "").

(** ** Library data *)

Module x509.
Definition Certificate := string.
Definition CertPool := list Certificate.
Definition NewCertPool : CertPool := [].
End x509.

Module tls.
Definition Certificate := string.

Record Config := {
  RootCAs : option x509.CertPool;
  InsecureSkipVerify : bool;
  Certificates : list Certificate;
  ServerName : string
}.

Definition set_Certificates (c : Config) (l : list Certificate) : Config :=
  {| RootCAs := RootCAs c;
     InsecureSkipVerify := InsecureSkipVerify c;
     Certificates := l;
     ServerName := ServerName c |}.
End tls.

Module labels.
Inductive MatchType := MatchEqual | MatchNotEqual | MatchRegexp | MatchNotRegexp | MatchOther (n : Z).
Record Matcher := { Type_ : MatchType; Name : string; Value : string }.
End labels.

Module storepb.
Inductive LabelMatcher_Type := EQ | NEQ | RE | NRE.
Record LabelMatcher := { Type_ : LabelMatcher_Type; Name : string; Value : string }.

Inductive PartialResponseStrategy := WARN | ABORT.

Inductive Aggr := Aggr_RAW | Aggr_COUNT | Aggr_SUM | Aggr_MIN | Aggr_MAX | Aggr_COUNTER.

Record SeriesRequest := {
  MinTime : Z;
  MaxTime : Z;
  Matchers : list LabelMatcher;
  PartialResponseStrategy_ : PartialResponseStrategy
}.

Definition Label := (string * string)%type.
Definition AggrChunk := string.

Record Series := { Labels : list Label; Chunks : list AggrChunk }.

(** The [oneof] of a response frame. *)
Inductive SeriesResponse :=
| Result_Series (s : Series)
| Result_Warning (w : string)
| Result_Hints (h : string).

(** The generated getter, which is safe on a nil receiver. *)
Definition GetSeries (m : option SeriesResponse) : option Series :=
  match m with
  | Some (Result_Series s) => Some s
  | _ => None
  end.

(** What one call of [Recv] on the stream answers. *)
Inductive Received :=
| Frame (r : SeriesResponse)
| Failure (e : error).

(** A [Store_SeriesClient]: the frames still to come and the answer of
    [CloseSend].  An exhausted stream answers [io.EOF]. *)
Record Store_SeriesClient := {
  incoming : list Received;
  closeSend : option error
}.

Definition Recv (c : Store_SeriesClient)
  : option SeriesResponse * option error * Store_SeriesClient :=
  match incoming c with
  | [] => (None, Some io_EOF, c)
  | Frame r :: rest => (Some r, None, {| incoming := rest; closeSend := closeSend c |})
  | Failure e :: rest => (None, Some e, {| incoming := rest; closeSend := closeSend c |})
  end.
End storepb.

Module grpc.
Definition ClientConn := nat.

Inductive Interceptor := metricsInterceptor | tracingInterceptor (tracer : string).

Inductive DialOption :=
| WithDefaultCallOptions_MaxCallRecvMsgSize (n : Z)
| WithUnaryInterceptor (chain : list Interceptor)
| WithStreamInterceptor (chain : list Interceptor)
| WithTransportCredentials (NewTLS : option tls.Config).

Definition ErrClientConnClosing : error := foreign "grpc: the client connection is closing".
End grpc.

Definition math_MaxInt32 : Z := 2147483647.

Record Logger := { logger_name : string }.
Record context_Context := { ctx_Err : option error }.
Record time_Time := { unix_nano : Z }.
Definition Tracer := string.
Definition NoopTracer : Tracer := "noop".
Definition Registry := string.

(** ** The outside world *)

(** What the libraries answer. *)
Record Env := {
  ioutil_ReadFile : string → string * option error;
  pem_certificates : string → list x509.Certificate;
  x509_SystemCertPool : option x509.CertPool * option error;
  tls_LoadX509KeyPair : string → string → tls.Certificate * option error;
  dial_failure : context_Context → string → list grpc.DialOption → option error;
  storepb_TranslatePromMatchers :
    list labels.Matcher → list storepb.LabelMatcher * option error;
  timestamp_FromTime : time_Time → Z;
  remote_Series :
    context_Context → storepb.SeriesRequest → option storepb.Store_SeriesClient * option error
}.

Inductive Event :=
| EvLog (l : Logger) (msg : string)
| EvRegister (reg : Registry)
| EvDial (c : grpc.ClientConn) (target : string)
| EvSeries (c : grpc.ClientConn) (req : storepb.SeriesRequest)
| EvCloseSend
| EvConnClose (c : grpc.ClientConn).

(** What the program has done: the connections that are open, the next
    connection handle, and the calls made so far, oldest first. *)
Record World := {
  open : gset grpc.ClientConn;
  fresh : grpc.ClientConn;
  trace : list Event
}.

Definition emit (e : Event) (w : World) : World :=
  {| open := open w; fresh := fresh w; trace := trace w ++ [e] |}.

(** ** Function bodies *)

Inductive Result (R : Type) :=
| Returned (r : R)
| Panicked.
Arguments Returned {R} r.
Arguments Panicked {R}.

Inductive Outcome (R A : Type) :=
| Next_ (a : A)
| Return_ (r : R)
| Panic_.
Arguments Next_ {R A} a.
Arguments Return_ {R A} r.
Arguments Panic_ {R A}.

(** A Go function with result type [R]. *)
Definition Fn (R : Type) : Type := World → Result R * World.

(** A statement inside a function with result type [R]. *)
Definition Go (R A : Type) : Type := World → Outcome R A * World.

Definition pure {R A} (a : A) : Go R A := λ w, (Next_ a, w).

Definition bind {R A B} (m : Go R A) (k : A → Go R B) : Go R B :=
  λ w, match m w with
       | (Next_ a, w') => k a w'
       | (Return_ r, w') => (Return_ r, w')
       | (Panic_, w') => (Panic_, w')
       end.

Definition return_ {R A} (r : R) : Go R A := λ w, (Return_ r, w).

Definition panic {R A} : Go R A := λ w, (Panic_, w).

Definition when {R} (b : bool) (m : Go R unit) : Go R unit :=
  if b then m else pure tt.

Definition effect {R} (f : World → World) : Go R unit := λ w, (Next_ tt, f w).

(** The body of a function; falling off the end does not happen in the
    functions below, each ends in [return_]. *)
Definition func {R} (body : Go R R) : Fn R :=
  λ w, match body w with
       | (Next_ r, w') => (Returned r, w')
       | (Return_ r, w') => (Returned r, w')
       | (Panic_, w') => (Panicked, w')
       end.

Definition call {R A} (f : Fn A) : Go R A :=
  λ w, match f w with
       | (Returned a, w') => (Next_ a, w')
       | (Panicked, w') => (Panic_, w')
       end.

Declare Scope go_scope.
Delimit Scope go_scope with go.
Notation "'do' x <- m ;; k" := (bind m (λ x, k))
  (at level 100, x pattern, m at next level, right associativity) : go_scope.
Notation "m ;; k" := (bind m (λ _, k))
  (at level 100, right associativity) : go_scope.

(** [level.Info(logger).Log("msg", msg)]. *)
Definition level_Info {R} (l : Logger) (msg : string) : Go R unit := effect (emit (EvLog l msg)).

(** ** gRPC calls that touch the world *)

(** [client.CloseSend()] on the stream held by a cursor. *)
Definition CloseSend {R} (client : option storepb.Store_SeriesClient) : Go R (option error) :=
  match client with
  | None => panic
  | Some c => effect (emit EvCloseSend) ;; pure (storepb.closeSend c)
  end%go.

(** [conn.Close()]: an open connection is released; closing it again
    answers [ErrClientConnClosing]. *)
Definition ClientConn_Close {R} (conn : option grpc.ClientConn) : Go R (option error) :=
  match conn with
  | None => panic
  | Some c =>
      λ w, if bool_decide (c ∈ open w)
           then (Next_ None,
                 emit (EvConnClose c)
                   {| open := open w ∖ {[c]}; fresh := fresh w; trace := trace w |})
           else (Next_ (Some grpc.ErrClientConnClosing), emit (EvConnClose c) w)
  end.

(** ** The cursor *)

Module iterator.

(** [iterator] implements [series.Set]. *)
Record t := {
  ctx : context_Context;
  conn : option grpc.ClientConn;
  client : option storepb.Store_SeriesClient;
  currentSeries : option storepb.Series;
  mint : Z;
  maxt : Z;
  err : option error
}.

Definition set_client (i : t) (c : option storepb.Store_SeriesClient) : t :=
  {| ctx := ctx i; conn := conn i; client := c; currentSeries := currentSeries i;
     mint := mint i; maxt := maxt i; err := err i |}.

Definition set_currentSeries (i : t) (s : option storepb.Series) : t :=
  {| ctx := ctx i; conn := conn i; client := client i; currentSeries := s;
     mint := mint i; maxt := maxt i; err := err i |}.

Definition set_err (i : t) (e : option error) : t :=
  {| ctx := ctx i; conn := conn i; client := client i; currentSeries := currentSeries i;
     mint := mint i; maxt := maxt i; err := e |}.

(** [Next] works on the receiver [*i]: it answers the boolean and the
    receiver after the call. *)
Definition Next (i : t) : Result (bool * t) :=
  match client i with
  | None => Panicked
  | Some c =>
      let '(seriesResp, err, c') := storepb.Recv c in
      let i := set_client i (Some c') in
      if bool_decide (err = Some io_EOF) then Returned (false, i)
      else if notnil err then Returned (false, set_err i err)
      else Returned (true, set_currentSeries i (storepb.GetSeries seriesResp))
  end.

Section At.
Context {chunkSeries labels_Labels : Type}.
(** [newChunkSeries] is defined in another file of the package and
    [labelpb.LabelsToPromLabels] in thanos; both are parameters here. *)
Context (newChunkSeries :
  labels_Labels → list storepb.AggrChunk → Z → Z → list storepb.Aggr → chunkSeries).
Context (LabelsToPromLabels : list storepb.Label → labels_Labels).

(** Selecting a field of the nil [currentSeries] panics. *)
Definition At (i : t) : Result chunkSeries :=
  match currentSeries i with
  | None => Panicked
  | Some s =>
      Returned (newChunkSeries (LabelsToPromLabels (storepb.Labels s)) (storepb.Chunks s)
                  (mint i) (maxt i) [storepb.Aggr_COUNT; storepb.Aggr_SUM])
  end.
End At.

Definition Warnings (i : t) : list string := [].

Definition Err (i : t) : option error := err i.

Definition Close (i : t) : Fn (option error) :=
  func (
    do err <- CloseSend (client i) ;;
    when (notnil err) (return_ err) ;;
    do err <- ClientConn_Close (conn i) ;;
    return_ err)%go.

End iterator.

(** ** Configuration and parameters *)

Module series.
(** Modelled from the spec: package [series] is outside this file; the
    records list the fields that [Read] selects (transport security knobs,
    the endpoint, the time range and the matchers). *)
Record TLSConfig := {
  InsecureSkipVerify : bool;
  CertFile : string;
  KeyFile : string;
  CAFile : string;
  ServerName : string
}.

Record Config := { Endpoint : string; TLSConfig_ : TLSConfig }.

Record Params := {
  Matchers : list labels.Matcher;
  MinTime : time_Time;
  MaxTime : time_Time
}.
End series.

(** [Series] implements [series.Reader]. *)
Record Series := { logger : Logger; conf : series.Config }.

Definition NewSeries (logger : Logger) (conf : series.Config) : Series * option error :=
  ({| logger := logger; conf := conf |}, None).

Section Program.
Context (env : Env).

(** [certPool.AppendCertsFromPEM(pem)]: the pool after the call and
    whether a certificate was added. *)
Definition AppendCertsFromPEM (pool : x509.CertPool) (pem : string) : x509.CertPool * bool :=
  let certs := pem_certificates env pem in
  (pool ++ certs, negb (bool_decide (certs = []))).

Definition both_required : string := "both client key and certificate must be provided".

Definition newCustomClientConfig (logger : Logger)
    (cert key caCert serverName : string) (insecureSkipVerify : bool)
  : Fn (option tls.Config * option error) :=
  func (
    do certPool <-
      (if nonempty caCert then
         let '(caPEM, err) := ioutil_ReadFile env caCert in
         when (notnil err) (return_ (None, errors_Wrap err "reading client CA")) ;;
         let '(certPool, ok) := AppendCertsFromPEM x509.NewCertPool caPEM in
         when (negb ok) (return_ (None, errors_Wrap err "building client CA")) ;;
         level_Info logger "TLS client using provided certificate pool" ;;
         pure (Some certPool)
       else
         let '(certPool, err) := x509_SystemCertPool env in
         when (notnil err) (return_ (None, errors_Wrap err "reading system certificate pool")) ;;
         level_Info logger "TLS client using system certificate pool" ;;
         pure certPool) ;;
    let tlsCfg :=
      {| tls.RootCAs := certPool;
         tls.InsecureSkipVerify := insecureSkipVerify;
         tls.Certificates := [];
         tls.ServerName := "" |} in
    when (xorb (nonempty key) (nonempty cert))
      (return_ (None, Some (errors_New both_required))) ;;
    do tlsCfg <-
      (if nonempty cert then
         let '(cert, err) := tls_LoadX509KeyPair env cert key in
         when (notnil err) (return_ (None, errors_Wrap err "client credentials")) ;;
         level_Info logger "TLS client authentication enabled" ;;
         pure (tls.set_Certificates tlsCfg [cert])
       else pure tlsCfg) ;;
    return_ (Some tlsCfg, None))%go.

(** [InsecureClient] creates the gRPC dial options for a store client. *)
Definition InsecureClient (logger : Logger) (reg : option Registry) (tracer : Tracer)
    (secure : bool) (cert key caCert serverName : string)
  : Fn (list grpc.DialOption * option error) :=
  func (
    let dialOpts :=
      [ grpc.WithDefaultCallOptions_MaxCallRecvMsgSize math_MaxInt32;
        grpc.WithUnaryInterceptor [grpc.metricsInterceptor; grpc.tracingInterceptor tracer];
        grpc.WithStreamInterceptor [grpc.metricsInterceptor; grpc.tracingInterceptor tracer] ] in
    match reg with
    | Some r => effect (emit (EvRegister r))
    | None => pure tt
    end ;;
    level_Info logger "enabling client to server TLS" ;;
    do (tlsCfg, err) <-
      call (newCustomClientConfig logger cert key caCert serverName (negb secure)) ;;
    when (notnil err) (return_ ([], err)) ;;
    return_ (dialOpts ++ [grpc.WithTransportCredentials tlsCfg], None))%go.

(** [grpc.DialContext]: a failed dial leaves nothing open. *)
Definition grpc_DialContext {R} (ctx : context_Context) (target : string)
    (opts : list grpc.DialOption) : Go R (option grpc.ClientConn * option error) :=
  λ w, match dial_failure env ctx target opts with
       | Some e => (Next_ (None, Some e), w)
       | None =>
           let c := fresh w in
           (Next_ (Some c, None),
            emit (EvDial c target)
              {| open := {[c]} ∪ open w; fresh := S c; trace := trace w |})
       end.

(** [storepb.NewStoreClient(conn).Series(ctx, req)]. *)
Definition StoreClient_Series {R} (conn : option grpc.ClientConn) (ctx : context_Context)
    (req : storepb.SeriesRequest)
  : Go R (option storepb.Store_SeriesClient * option error) :=
  match conn with
  | None => panic
  | Some c => effect (emit (EvSeries c req)) ;; pure (remote_Series env ctx req)
  end%go.

Definition Read (i : Series) (ctx : context_Context) (params : series.Params)
  : Fn (option iterator.t * option error) :=
  func (
    do (dialOpts, err) <-
      call (InsecureClient (logger i) None NoopTracer
              (negb (series.InsecureSkipVerify (series.TLSConfig_ (conf i))))
              (series.CertFile (series.TLSConfig_ (conf i)))
              (series.KeyFile (series.TLSConfig_ (conf i)))
              (series.CAFile (series.TLSConfig_ (conf i)))
              (series.ServerName (series.TLSConfig_ (conf i)))) ;;
    when (notnil err) (return_ (None, errors_Wrap err "error initializing GRPC options")) ;;
    do (conn, err) <- grpc_DialContext ctx (series.Endpoint (conf i)) dialOpts ;;
    when (notnil err) (return_ (None, errors_Wrap err "error initializing GRPC dial context")) ;;
    let '(matchers, err) := storepb_TranslatePromMatchers env (series.Matchers params) in
    when (notnil err) (return_ (None, err)) ;;
    do (seriesClient, err) <-
      StoreClient_Series conn ctx
        {| storepb.MinTime := timestamp_FromTime env (series.MinTime params);
           storepb.MaxTime := timestamp_FromTime env (series.MaxTime params);
           storepb.Matchers := matchers;
           storepb.PartialResponseStrategy_ := storepb.ABORT |} ;;
    when (notnil err)
      (return_ (None, errors_Wrapf err "storepb.Series against " (series.Endpoint (conf i)))) ;;
    return_ (Some {| iterator.ctx := ctx;
                     iterator.conn := conn;
                     iterator.client := seriesClient;
                     iterator.currentSeries := None;
                     iterator.mint := timestamp_FromTime env (series.MinTime params);
                     iterator.maxt := timestamp_FromTime env (series.MaxTime params);
                     iterator.err := None |}, None))%go.

End Program.

Arguments both_required : simpl never.
Arguments newCustomClientConfig : simpl never.
Arguments InsecureClient : simpl never.

(** ** Observations on a trace *)

(** The calls that reach the network, without log lines and metric
    registration. *)
Definition on_wire (e : Event) : bool :=
  match e with
  | EvLog _ _ | EvRegister _ => false
  | _ => true
  end.

Definition wire (t : list Event) : list Event := List.filter on_wire t.

(** The [Series] requests sent so far. *)
Fixpoint requests (t : list Event) : list (grpc.ClientConn * storepb.SeriesRequest) :=
  match t with
  | [] => []
  | EvSeries c req :: t' => (c, req) :: requests t'
  | _ :: t' => requests t'
  end.

(** Every [conn.Close] in [evs] comes after a [CloseSend] and no
    [CloseSend] follows it. *)
Definition half_close_first (evs : list Event) : Prop :=
  ∀ pre c post, evs = pre ++ EvConnClose c :: post →
    EvCloseSend ∈ pre ∧ EvCloseSend ∉ post.

(** The root pool is available: the CA file is read and holds a
    certificate, or, without a CA file, the system pool is loaded. *)
Definition pool_available (env : Env) (caCert : string) : Prop :=
  if nonempty caCert
  then (ioutil_ReadFile env caCert).2 = None
       ∧ pem_certificates env (ioutil_ReadFile env caCert).1 ≠ []
  else (x509_SystemCertPool env).2 = None.

(** Exactly one of the two paths is given. *)
Definition exactly_one (cert key : string) : Prop :=
  (cert ≠ "" ∧ key = "") ∨ (cert = "" ∧ key ≠ "").

(** ** The ways [Read] can end *)

(** The wire request that [Read] builds from its parameters. *)
Definition Read_request (env : Env) (params : series.Params)
    (matchers : list storepb.LabelMatcher) : storepb.SeriesRequest :=
  {| storepb.MinTime := timestamp_FromTime env (series.MinTime params);
     storepb.MaxTime := timestamp_FromTime env (series.MaxTime params);
     storepb.Matchers := matchers;
     storepb.PartialResponseStrategy_ := storepb.ABORT |}.

(** The dial options that [Read] asks for. *)
Definition Read_options (env : Env) (i : Series) : Fn (list grpc.DialOption * option error) :=
  InsecureClient env (logger i) None NoopTracer
    (negb (series.InsecureSkipVerify (series.TLSConfig_ (conf i))))
    (series.CertFile (series.TLSConfig_ (conf i)))
    (series.KeyFile (series.TLSConfig_ (conf i)))
    (series.CAFile (series.TLSConfig_ (conf i)))
    (series.ServerName (series.TLSConfig_ (conf i))).

(** [Read_outcome env i ctx params w r w'] lists how a call of [Read] in
    world [w] can return [r] and leave the world [w']: one case per
    [return] statement, with the connections open afterwards and the calls
    put on the wire. *)
Inductive Read_outcome (env : Env) (i : Series) (ctx : context_Context)
    (params : series.Params) (w : World)
  : option iterator.t * option error → World → Prop :=
| Read_no_options opts e0 w' :
    Read_options env i w = (Returned (opts, Some e0), w') →
    open w' = open w →
    wire (trace w') = wire (trace w) →
    Read_outcome env i ctx params w
      (None, Some (withMessage e0 "error initializing GRPC options")) w'
| Read_no_conn opts w1 e0 w' :
    Read_options env i w = (Returned (opts, None), w1) →
    dial_failure env ctx (series.Endpoint (conf i)) opts = Some e0 →
    open w' = open w →
    wire (trace w') = wire (trace w) →
    Read_outcome env i ctx params w
      (None, Some (withMessage e0 "error initializing GRPC dial context")) w'
| Read_bad_matchers ms e0 w' :
    storepb_TranslatePromMatchers env (series.Matchers params) = (ms, Some e0) →
    open w' = {[fresh w]} ∪ open w →
    wire (trace w') = wire (trace w) ++ [EvDial (fresh w) (series.Endpoint (conf i))] →
    Read_outcome env i ctx params w (None, Some e0) w'
| Read_no_stream ms s e0 w' :
    storepb_TranslatePromMatchers env (series.Matchers params) = (ms, None) →
    remote_Series env ctx (Read_request env params ms) = (s, Some e0) →
    open w' = {[fresh w]} ∪ open w →
    wire (trace w')
    = wire (trace w) ++ [EvDial (fresh w) (series.Endpoint (conf i));
                         EvSeries (fresh w) (Read_request env params ms)] →
    Read_outcome env i ctx params w
      (None, Some (withMessage e0 ("storepb.Series against " +:+ series.Endpoint (conf i)))) w'
| Read_cursor ms s w' :
    storepb_TranslatePromMatchers env (series.Matchers params) = (ms, None) →
    remote_Series env ctx (Read_request env params ms) = (s, None) →
    open w' = {[fresh w]} ∪ open w →
    wire (trace w')
    = wire (trace w) ++ [EvDial (fresh w) (series.Endpoint (conf i));
                         EvSeries (fresh w) (Read_request env params ms)] →
    Read_outcome env i ctx params w
      (Some {| iterator.ctx := ctx;
               iterator.conn := Some (fresh w);
               iterator.client := s;
               iterator.currentSeries := None;
               iterator.mint := timestamp_FromTime env (series.MinTime params);
               iterator.maxt := timestamp_FromTime env (series.MaxTime params);
               iterator.err := None |}, None) w'.

(** ** Iterating a cursor *)

(** [advances it it'] : the cursor [it'] is [it] after some calls of
    [Next], whatever they answered. *)
Inductive advances : iterator.t → iterator.t → Prop :=
| advances_here it : advances it it
| advances_Next it b it1 it' :
    iterator.Next it = Returned (b, it1) → advances it1 it' → advances it it'.

(** The options that [InsecureClient] puts before the transport
    credentials. *)
Definition base_options (tracer : Tracer) : list grpc.DialOption :=
  [ grpc.WithDefaultCallOptions_MaxCallRecvMsgSize math_MaxInt32;
    grpc.WithUnaryInterceptor [grpc.metricsInterceptor; grpc.tracingInterceptor tracer];
    grpc.WithStreamInterceptor [grpc.metricsInterceptor; grpc.tracingInterceptor tracer] ].

(** The client key pair is usable: no pair is asked for, or both paths are
    given and the pair loads. *)
Definition client_pair_ok (env : Env) (cert key : string) : Prop :=
  (cert = "" ∧ key = "")
  ∨ (cert ≠ "" ∧ key ≠ "" ∧ (tls_LoadX509KeyPair env cert key).2 = None).

(** The configuration that the arguments of [newCustomClientConfig]
    describe, the server name apart. *)
Definition described_config (env : Env) (cert key caCert : string) (skip : bool)
  : tls.Config :=
  {| tls.RootCAs :=
       if nonempty caCert
       then Some (pem_certificates env (ioutil_ReadFile env caCert).1)
       else (x509_SystemCertPool env).1;
     tls.InsecureSkipVerify := skip;
     tls.Certificates :=
       if nonempty cert then [(tls_LoadX509KeyPair env cert key).1] else [];
     tls.ServerName := "" |}.

(** ** Concrete surroundings used to run the program *)

Module Demo.

Definition no_such_file : error := foreign "open: no such file or directory".

(** Thanos' matcher translation: an unknown matcher type is refused. *)
Fixpoint translate (ms : list labels.Matcher) : list storepb.LabelMatcher * option error :=
  match ms with
  | [] => ([], None)
  | m :: ms' =>
      let ty :=
        match labels.Type_ m with
        | labels.MatchEqual => Some storepb.EQ
        | labels.MatchNotEqual => Some storepb.NEQ
        | labels.MatchRegexp => Some storepb.RE
        | labels.MatchNotRegexp => Some storepb.NRE
        | labels.MatchOther _ => None
        end in
      match ty, translate ms' with
      | Some ty, (res, None) =>
          ({| storepb.Type_ := ty; storepb.Name := labels.Name m;
              storepb.Value := labels.Value m |} :: res, None)
      | None, _ => ([], Some (errors_New "unrecognized matcher type"))
      | _, (_, Some e) => ([], Some e)
      end
  end.

(** A machine with one good CA file, one file without certificates, one
    client key pair and a system pool; the remote store answers [remote]. *)
Definition env (remote : option storepb.Store_SeriesClient * option error) : Env :=
  {| ioutil_ReadFile := λ path,
       if bool_decide (path = "ca.pem") then ("CERTIFICATE store-ca", None)
       else if bool_decide (path = "notes.txt") then ("no certificate here", None)
       else ("", Some no_such_file);
     pem_certificates := λ pem,
       if bool_decide (pem = "CERTIFICATE store-ca") then ["store-ca"] else [];
     x509_SystemCertPool := (Some ["system-root"], None);
     tls_LoadX509KeyPair := λ certFile keyFile,
       if bool_decide (certFile = "client.crt" ∧ keyFile = "client.key")
       then ("client-pair", None)
       else ("", Some (foreign "tls: failed to find any PEM data"));
     dial_failure := λ _ target _,
       if bool_decide (target = "") then Some (foreign "dial: missing address") else None;
     storepb_TranslatePromMatchers := translate;
     timestamp_FromTime := λ t, (unix_nano t / 1000000)%Z;
     remote_Series := λ _ _, remote |}.

Definition log : Logger := {| logger_name := "storeapi" |}.

Definition background : context_Context := {| ctx_Err := None |}.

Definition w0 : World := {| open := ∅; fresh := 0; trace := [] |}.

Definition up : storepb.Series :=
  {| storepb.Labels := [("__name__", "up")]; storepb.Chunks := ["c1"; "c2"] |}.

(** A stream with one series whose [CloseSend] fails. *)
Definition stubborn : storepb.Store_SeriesClient :=
  {| storepb.incoming := [storepb.Frame (storepb.Result_Series up)];
     storepb.closeSend := Some (foreign "transport is closing") |}.

(** A stream that delivers a warning frame and then a series. *)
Definition warned : storepb.Store_SeriesClient :=
  {| storepb.incoming := [storepb.Frame (storepb.Result_Warning "store timed out");
                          storepb.Frame (storepb.Result_Series up)];
     storepb.closeSend := None |}.

Definition store_conf (caFile certFile keyFile serverName : string) : series.Config :=
  {| series.Endpoint := "store:10901";
     series.TLSConfig_ :=
       {| series.InsecureSkipVerify := false;
          series.CertFile := certFile;
          series.KeyFile := keyFile;
          series.CAFile := caFile;
          series.ServerName := serverName |} |}.

Definition reader : Series := {| logger := log; conf := store_conf "" "" "" "" |}.

Definition params (ms : list labels.Matcher) : series.Params :=
  {| series.Matchers := ms;
     series.MinTime := {| unix_nano := 1000000000 |};
     series.MaxTime := {| unix_nano := 5000000000 |} |}.

Definition job_prom : labels.Matcher :=
  {| labels.Type_ := labels.MatchEqual; labels.Name := "job"; labels.Value := "prom" |}.

Definition odd_matcher : labels.Matcher :=
  {| labels.Type_ := labels.MatchOther 7; labels.Name := "job"; labels.Value := "prom" |}.

(** A stand-in for the package's [chunkSeries]. *)
Record chunkSeries := {
  lset : list storepb.Label;
  chunks : list storepb.AggrChunk;
  cs_mint : Z;
  cs_maxt : Z;
  aggrs : list storepb.Aggr
}.

Definition newChunkSeries := Build_chunkSeries.

Definition LabelsToPromLabels (l : list storepb.Label) : list storepb.Label := l.

End Demo.

(** * Properties *)

Create HintDb go discriminated.
#[global] Hint Unfold func call bind when return_ pure effect panic level_Info : go.

(** Runs the plumbing of a function body. *)
Ltac go_run := autounfold with go in *; simpl in *.

(** Splits on the next library answer or test that the goal is stuck on. *)
Ltac go_case :=
  match goal with
  | |- context [nonempty ?s] => destruct (nonempty s) eqn:?
  | |- context [ioutil_ReadFile ?e ?p] => destruct (ioutil_ReadFile e p) as [? ?] eqn:?
  | |- context [x509_SystemCertPool ?e] => destruct (x509_SystemCertPool e) as [? ?] eqn:?
  | |- context [tls_LoadX509KeyPair ?e ?c ?k] =>
      destruct (tls_LoadX509KeyPair e c k) as [? ?] eqn:?
  | |- context [dial_failure ?e ?c ?t ?o] => destruct (dial_failure e c t o) eqn:?
  | |- context [storepb_TranslatePromMatchers ?e ?m] =>
      destruct (storepb_TranslatePromMatchers e m) as [? ?] eqn:?
  | |- context [remote_Series ?e ?c ?r] => destruct (remote_Series e c r) as [? ?] eqn:?
  | |- context [notnil ?e] => is_var e; destruct e
  | |- context [bool_decide ?P] => destruct (bool_decide P) eqn:?
  end; simpl in *.

Lemma nonempty_true s : s ≠ "" → nonempty s = true.
Proof. intros Hs. unfold nonempty. by apply bool_decide_eq_true_2. Qed.

Lemma nonempty_false s : s = "" → nonempty s = false.
Proof. intros ->. reflexivity. Qed.

Lemma nonempty_spec s : nonempty s = true ↔ s ≠ "".
Proof. unfold nonempty. apply bool_decide_eq_true. Qed.

Lemma exactly_one_xorb cert key :
  exactly_one cert key → xorb (nonempty key) (nonempty cert) = true.
Proof.
  intros [[Hc ->] | [-> Hk]].
  - by rewrite (nonempty_true cert Hc).
  - by rewrite (nonempty_true key Hk).
Qed.

(** The plumbing behaves as a monad with two ways out. *)
Lemma bind_pure {R A B} (a : A) (k : A → Go R B) w : bind (pure a) k w = k a w.
Proof. reflexivity. Qed.

Lemma bind_return_ {R A B} (r : R) (k : A → Go R B) w :
  bind (return_ r) k w = (Return_ r, w).
Proof. reflexivity. Qed.

Lemma bind_panic {R A B} (k : A → Go R B) w : bind panic k w = (Panic_, w).
Proof. reflexivity. Qed.

Lemma bind_assoc {R A B C} (m : Go R A) (k : A → Go R B) (h : B → Go R C) w :
  bind (bind m k) h w = bind m (λ a, bind (k a) h) w.
Proof. unfold bind. by destruct (m w) as [[a | r |] w']. Qed.

Lemma func_call {R A} (f : Fn A) (k : A → Go R R) w a w' :
  f w = (Returned a, w') → func (bind (call f) k) w = func (k a) w'.
Proof. intros Hf. unfold func, bind, call. by rewrite Hf. Qed.

Lemma errors_Wrap_notnil err msg : notnil (errors_Wrap err msg) = notnil err.
Proof. by destruct err. Qed.

Lemma errors_Wrap_Cause e msg e' :
  errors_Wrap (Some e) msg = Some e' → Cause e' = Cause e.
Proof. intros [= <-]. reflexivity. Qed.

(** ** [newCustomClientConfig] *)

Section ClientConfig.
Context (env : Env) (logger : Logger).
Implicit Types (cert key caCert serverName : string) (skip : bool) (w : World).

(** The server name plays no part in the result. *)
Lemma newCustomClientConfig_serverName cert key caCert serverName serverName' skip :
  newCustomClientConfig env logger cert key caCert serverName skip
  = newCustomClientConfig env logger cert key caCert serverName' skip.
Proof. reflexivity. Qed.

(** The function never panics and only writes log lines. *)
Lemma newCustomClientConfig_quiet cert key caCert serverName skip w :
  ∃ r w', newCustomClientConfig env logger cert key caCert serverName skip w = (Returned r, w')
    ∧ open w' = open w ∧ fresh w' = fresh w ∧ wire (trace w') = wire (trace w).
Proof.
  unfold newCustomClientConfig, AppendCertsFromPEM, wire. go_run.
  repeat go_case; eexists _, _; (split; [reflexivity|]); simpl;
    rewrite ?List.filter_app; simpl; rewrite ?app_nil_r; done.
Qed.

(** What a returned configuration holds: the roots come from the CA file
    or else the system pool, the verification switch is the argument, the
    client pair is loaded exactly when a certificate path is given, and
    the server name is left empty. *)
Lemma newCustomClientConfig_fields cert key caCert serverName skip w cfg e w' :
  newCustomClientConfig env logger cert key caCert serverName skip w
    = (Returned (Some cfg, e), w') →
  e = None
  ∧ tls.RootCAs cfg
    = (if nonempty caCert
       then Some (pem_certificates env (ioutil_ReadFile env caCert).1)
       else (x509_SystemCertPool env).1)
  ∧ tls.InsecureSkipVerify cfg = skip
  ∧ tls.Certificates cfg
    = (if nonempty cert then [(tls_LoadX509KeyPair env cert key).1] else [])
  ∧ tls.ServerName cfg = "".
Proof.
  unfold newCustomClientConfig, AppendCertsFromPEM. go_run.
  repeat go_case; intros [= <- <- <-]; simpl; done.
Qed.

(** Client authentication needs both paths. *)
Lemma newCustomClientConfig_client_auth cert key caCert serverName skip w cfg e w' :
  newCustomClientConfig env logger cert key caCert serverName skip w
    = (Returned (Some cfg, e), w') →
  tls.Certificates cfg ≠ [] → cert ≠ "" ∧ key ≠ "".
Proof.
  unfold newCustomClientConfig, AppendCertsFromPEM. go_run.
  repeat go_case; intros [= <- <- <-]; simpl; try done.
  all: intros _; split; apply nonempty_spec; try done.
  all: by destruct (nonempty key).
Qed.

End ClientConfig.

(** C8. A CA file that is read but holds no certificate makes
    [newCustomClientConfig] return a nil configuration together with a nil
    error: the failure branch wraps the (nil) read error, and wrapping nil
    gives nil. *)
Theorem newCustomClientConfig_malformed_CA_nil_nil
    env logger cert key caCert serverName skip w pem :
  caCert ≠ "" →
  ioutil_ReadFile env caCert = (pem, None) →
  (AppendCertsFromPEM env x509.NewCertPool pem).2 = false →
  newCustomClientConfig env logger cert key caCert serverName skip w
  = (Returned (None, None), w).
Proof.
  intros Hca Hread Hpem. unfold newCustomClientConfig.
  rewrite (nonempty_true _ Hca), Hread.
  destruct (AppendCertsFromPEM env x509.NewCertPool pem) as [pool ok].
  simpl in Hpem. subst ok. reflexivity.
Qed.

Lemma newCustomClientConfig_malformed_CA_nil_nil_witness :
  newCustomClientConfig (Demo.env (None, None)) Demo.log
    "client.crt" "client.key" "notes.txt" "store.example.com" false Demo.w0
  = (Returned (None, None), Demo.w0).
Proof.
  apply (newCustomClientConfig_malformed_CA_nil_nil
           (Demo.env (None, None)) Demo.log "client.crt" "client.key" "notes.txt"
           "store.example.com" false Demo.w0 "no certificate here").
  - discriminate.
  - reflexivity.
  - reflexivity.
Defined.

(** C9, as stated, fails: with only a certificate path given and a CA file
    that cannot be read, the error is the wrapped read error, not the
    "both client key and certificate" error. *)
Lemma newCustomClientConfig_one_of_pair_unreadable_CA :
  exactly_one "client.crt" ""
  ∧ (newCustomClientConfig (Demo.env (None, None)) Demo.log
       "client.crt" "" "missing.pem" "" false Demo.w0).1
    = Returned (None, Some (withMessage Demo.no_such_file "reading client CA"))
  ∧ (newCustomClientConfig (Demo.env (None, None)) Demo.log
       "client.crt" "" "missing.pem" "" false Demo.w0).1
    ≠ Returned (None, Some (errors_New both_required)).
Proof.
  split; [left; split; [discriminate | reflexivity] |].
  split; [reflexivity | discriminate].
Qed.

(** C9, amended. When exactly one of the client key path and the client
    certificate path is non-empty, [newCustomClientConfig] returns a nil
    configuration; if moreover the root pool was obtained (the CA file was
    read and holds a certificate, or no CA file is given and the system
    pool loads), the error is "both client key and certificate must be
    provided".  A returned configuration carries a client certificate only
    when both paths are non-empty. *)
Theorem newCustomClientConfig_one_of_pair
    env logger cert key caCert serverName skip w :
  (exactly_one cert key →
     (∃ e w', newCustomClientConfig env logger cert key caCert serverName skip w
              = (Returned (None, e), w'))
     ∧ (pool_available env caCert →
        ∃ w', newCustomClientConfig env logger cert key caCert serverName skip w
              = (Returned (None, Some (errors_New both_required)), w')))
  ∧ (∀ cfg e w',
       newCustomClientConfig env logger cert key caCert serverName skip w
       = (Returned (Some cfg, e), w') →
       tls.Certificates cfg ≠ [] → cert ≠ "" ∧ key ≠ "").
Proof.
  split; [| intros cfg e w'; apply newCustomClientConfig_client_auth].
  intros Hone. pose proof (exactly_one_xorb _ _ Hone) as Hx. split.
  - unfold newCustomClientConfig, AppendCertsFromPEM. rewrite Hx. go_run.
    repeat go_case; eexists _, _; reflexivity.
  - unfold pool_available, newCustomClientConfig, AppendCertsFromPEM.
    rewrite Hx. go_run.
    destruct (nonempty caCert).
    + destruct (ioutil_ReadFile env caCert) as [pem err]. simpl.
      intros [-> Hcerts]. simpl.
      rewrite (bool_decide_eq_false_2 _ Hcerts). simpl. eexists. reflexivity.
    + destruct (x509_SystemCertPool env) as [pool err]. simpl.
      intros ->. simpl. eexists. reflexivity.
Qed.

Lemma newCustomClientConfig_one_of_pair_witness :
  exactly_one "" "client.key"
  ∧ pool_available (Demo.env (None, None)) "ca.pem"
  ∧ ∃ w', newCustomClientConfig (Demo.env (None, None)) Demo.log
            "" "client.key" "ca.pem" "" true Demo.w0
          = (Returned (None, Some (errors_New both_required)), w').
Proof.
  assert (H1 : exactly_one "" "client.key") by (right; split; [reflexivity | discriminate]).
  assert (H2 : pool_available (Demo.env (None, None)) "ca.pem")
    by (split; [reflexivity | discriminate]).
  split; [exact H1 |]. split; [exact H2 |].
  exact (proj2 (proj1 (newCustomClientConfig_one_of_pair
                         (Demo.env (None, None)) Demo.log "" "client.key" "ca.pem" ""
                         true Demo.w0) H1) H2).
Defined.

(** C6. The server name override is not applied: with every other knob at
    its default and the server name ["store.example.com"], the returned
    configuration has an empty [ServerName]. *)
Theorem newCustomClientConfig_drops_serverName :
  ∃ cfg w',
    newCustomClientConfig (Demo.env (None, None)) Demo.log
      "" "" "" "store.example.com" false Demo.w0
    = (Returned (Some cfg, None), w')
    ∧ tls.RootCAs cfg = Some ["system-root"]
    ∧ tls.InsecureSkipVerify cfg = false
    ∧ tls.ServerName cfg = ""
    ∧ tls.ServerName cfg ≠ "store.example.com".
Proof.
  eexists _, _. split; [reflexivity |]. simpl.
  repeat split; discriminate.
Qed.

(** ** The cursor: [Next], [Err] and [At] *)

Lemma Recv_frame_iff c :
  (storepb.Recv c).1.2 = None ↔ ∃ r, (storepb.Recv c).1.1 = Some r.
Proof.
  unfold storepb.Recv. destruct (storepb.incoming c) as [| [r | e] rest]; simpl.
  - split; [discriminate | intros [r [=]]].
  - split; [eauto | done].
  - split; [discriminate | intros [r [=]]].
Qed.

(** A [Next] that answers true leaves the recorded error alone. *)
Lemma Next_true_keeps_Err it it' :
  iterator.Next it = Returned (true, it') → iterator.Err it' = iterator.Err it.
Proof.
  unfold iterator.Next. destruct (iterator.client it) as [c |]; [| discriminate].
  destruct (storepb.Recv c) as [[resp rerr] c'].
  repeat go_case; intros [= <-]; reflexivity.
Qed.

(** At [io.EOF], [Next] answers false and leaves the recorded error as it
    was. *)
Lemma Next_EOF_keeps_Err it c :
  iterator.client it = Some c →
  (storepb.Recv c).1.2 = Some io_EOF →
  ∃ it', iterator.Next it = Returned (false, it') ∧ iterator.Err it' = iterator.Err it.
Proof.
  intros Hc Heof. unfold iterator.Next. rewrite Hc.
  destruct (storepb.Recv c) as [[resp rerr] c']. simpl in Heof. subst rerr.
  eexists. split; reflexivity.
Qed.

(** C2. On a cursor that has recorded no error (every cursor from [Read]
    until [Next] first answers false), [Next] answers true exactly when
    [Recv] delivered a response; on [io.EOF] it answers false and [Err]
    is nil; on any other receive error it answers false and [Err] is that
    error.  So after a false answer, [Err] is nil exactly for the clean end
    of the stream. *)
Theorem Next_reports_end_and_failure (it : iterator.t) (c : storepb.Store_SeriesClient) :
  iterator.client it = Some c →
  iterator.Err it = None →
  ∃ b it',
    iterator.Next it = Returned (b, it')
    ∧ (b = true ↔ (storepb.Recv c).1.2 = None)
    ∧ (b = true ↔ ∃ r, (storepb.Recv c).1.1 = Some r)
    ∧ ((storepb.Recv c).1.2 = Some io_EOF → b = false ∧ iterator.Err it' = None)
    ∧ (∀ e, (storepb.Recv c).1.2 = Some e → e ≠ io_EOF →
         b = false ∧ iterator.Err it' = Some e)
    ∧ (b = true →
         iterator.Err it' = None
         ∧ iterator.currentSeries it' = storepb.GetSeries (storepb.Recv c).1.1)
    ∧ (b = false → (iterator.Err it' = None ↔ (storepb.Recv c).1.2 = Some io_EOF)).
Proof.
  intros Hc Herr. unfold iterator.Err in *.
  pose proof (Recv_frame_iff c) as Hframe.
  unfold iterator.Next. rewrite Hc.
  destruct (storepb.Recv c) as [[resp rerr] c']. simpl in *.
  destruct (bool_decide (rerr = Some io_EOF)) eqn:Heof.
  - apply bool_decide_eq_true in Heof. subst rerr.
    eexists _, _. split; [reflexivity |]. simpl.
    rewrite <- Hframe. repeat split; intros; simplify_eq/=; done.
  - apply bool_decide_eq_false in Heof.
    destruct rerr as [e |]; simpl.
    + eexists _, _. split; [reflexivity |]. simpl.
      rewrite <- Hframe. repeat split; intros; simplify_eq/=; done.
    + eexists _, _. split; [reflexivity |]. simpl.
      rewrite <- Hframe. repeat split; intros; simplify_eq/=; done.
Qed.

Lemma Next_reports_end_and_failure_witness :
  let broken : storepb.Store_SeriesClient :=
    {| storepb.incoming := [storepb.Failure (foreign "rpc error: code = Unavailable")];
       storepb.closeSend := None |} in
  let it : iterator.t :=
    {| iterator.ctx := Demo.background; iterator.conn := Some 0;
       iterator.client := Some broken; iterator.currentSeries := None;
       iterator.mint := 1000; iterator.maxt := 5000; iterator.err := None |} in
  ∃ b it',
    iterator.Next it = Returned (b, it')
    ∧ b = false
    ∧ iterator.Err it' = Some (foreign "rpc error: code = Unavailable").
Proof.
  intros broken it.
  destruct (Next_reports_end_and_failure it broken eq_refl eq_refl)
    as (b & it' & Hnext & _ & _ & _ & Hfail & _).
  exists b, it'. split; [exact Hnext |].
  apply (Hfail (foreign "rpc error: code = Unavailable")); [reflexivity | discriminate].
Defined.

Section Cursor_At.
Context {chunkSeries labels_Labels : Type}.
Context (newChunkSeries :
  labels_Labels → list storepb.AggrChunk → Z → Z → list storepb.Aggr → chunkSeries).
Context (LabelsToPromLabels : list storepb.Label → labels_Labels).

(** [At] builds a chunk series exactly when a series is current. *)
Lemma At_Returned_iff it :
  (∃ cs, iterator.At newChunkSeries LabelsToPromLabels it = Returned cs)
  ↔ iterator.currentSeries it ≠ None.
Proof.
  unfold iterator.At. destruct (iterator.currentSeries it); split; try done.
  - eauto.
  - intros [cs [=]].
Qed.

End Cursor_At.

(** C10, as stated, fails: after a warning frame [Next] answers true with a
    nil current series, and [At] then panics on the nil pointer; it builds
    no chunk series. *)
Lemma At_after_warning_frame_panics :
  let it : iterator.t :=
    {| iterator.ctx := Demo.background; iterator.conn := Some 0;
       iterator.client := Some Demo.warned; iterator.currentSeries := None;
       iterator.mint := 1000; iterator.maxt := 5000; iterator.err := None |} in
  ∃ it',
    iterator.Next it = Returned (true, it')
    ∧ iterator.currentSeries it' = None
    ∧ iterator.At Demo.newChunkSeries Demo.LabelsToPromLabels it' = Panicked
    ∧ ¬ ∃ cs, iterator.At Demo.newChunkSeries Demo.LabelsToPromLabels it' = Returned cs.
Proof.
  intros it. eexists. split; [reflexivity |]. simpl.
  repeat split. intros [cs [=]].
Qed.

(** C10, amended. When the stream delivers a response that is not a series
    payload, [Next] still answers true, records no error and sets the
    current series to nil; it neither skips nor rejects the message.  The
    following [At] selects a field of the nil series and panics. *)
Theorem Next_then_At_on_non_series_frame
    {chunkSeries labels_Labels : Type}
    (newChunkSeries :
       labels_Labels → list storepb.AggrChunk → Z → Z → list storepb.Aggr → chunkSeries)
    (LabelsToPromLabels : list storepb.Label → labels_Labels)
    (it : iterator.t) (c : storepb.Store_SeriesClient) (r : storepb.SeriesResponse) :
  iterator.client it = Some c →
  (storepb.Recv c).1 = (Some r, None) →
  storepb.GetSeries (Some r) = None →
  ∃ it',
    iterator.Next it = Returned (true, it')
    ∧ iterator.Err it' = iterator.Err it
    ∧ iterator.currentSeries it' = None
    ∧ iterator.At newChunkSeries LabelsToPromLabels it' = Panicked.
Proof.
  intros Hc Hrecv Hget. unfold iterator.Next. rewrite Hc.
  destruct (storepb.Recv c) as [[resp rerr] c']. simpl in Hrecv.
  injection Hrecv as -> ->.
  destruct r as [s | warning | hints]; [discriminate Hget | ..];
    eexists; (split; [reflexivity |]); done.
Qed.

Lemma Next_then_At_on_non_series_frame_witness :
  let it : iterator.t :=
    {| iterator.ctx := Demo.background; iterator.conn := Some 0;
       iterator.client := Some Demo.warned; iterator.currentSeries := Some Demo.up;
       iterator.mint := 1000; iterator.maxt := 5000; iterator.err := None |} in
  ∃ it',
    iterator.Next it = Returned (true, it')
    ∧ iterator.Err it' = iterator.Err it
    ∧ iterator.currentSeries it' = None
    ∧ iterator.At Demo.newChunkSeries Demo.LabelsToPromLabels it' = Panicked.
Proof.
  intros it.
  exact (Next_then_At_on_non_series_frame Demo.newChunkSeries Demo.LabelsToPromLabels
           it Demo.warned (storepb.Result_Warning "store timed out")
           eq_refl eq_refl eq_refl).
Defined.

(** ** The cursor: [Close] *)

Lemma half_close_first_none : half_close_first [].
Proof. intros [| ? ?] c post [=]. Qed.

Lemma half_close_first_only_CloseSend : half_close_first [EvCloseSend].
Proof. intros [| ? [| ? ?]] c post [=]. Qed.

Lemma half_close_first_both c : half_close_first [EvCloseSend; EvConnClose c].
Proof.
  intros [| e1 [| e2 [| ? ?]]] c' post [=]; subst.
  split; [apply list_elem_of_here | apply not_elem_of_nil].
Qed.

(** A failing [CloseSend] ends [Close] at once: the error is returned and
    the world only learns of the half-close. *)
Lemma Close_CloseSend_error it c e w :
  iterator.client it = Some c →
  storepb.closeSend c = Some e →
  iterator.Close it w = (Returned (Some e), emit EvCloseSend w).
Proof.
  intros Hc He. unfold iterator.Close, CloseSend. rewrite Hc. go_run.
  rewrite He. reflexivity.
Qed.

(** When [CloseSend] succeeds, [Close] releases an open connection. *)
Lemma Close_releases it c k w :
  iterator.client it = Some c →
  storepb.closeSend c = None →
  iterator.conn it = Some k →
  k ∈ open w →
  ∃ w', iterator.Close it w = (Returned None, w')
        ∧ open w' = open w ∖ {[k]}
        ∧ (k ∉ open w')
        ∧ trace w' = trace w ++ [EvCloseSend; EvConnClose k].
Proof.
  intros Hc He Hk Hopen. unfold iterator.Close, CloseSend, ClientConn_Close.
  rewrite Hc, Hk. go_run. rewrite He. simpl.
  rewrite (bool_decide_eq_true_2 _ Hopen). simpl.
  eexists. split; [reflexivity |]. simpl.
  split; [reflexivity |]. split.
  - intros [_ Hk']%elem_of_difference. apply Hk'. by apply elem_of_singleton.
  - by rewrite <- app_assoc.
Qed.

(** C5. What [Close] puts on the trace is fixed by the cursor.  On a cursor
    with a stream, [Close] first half-closes it: [CloseSend] is the first
    call.  If the half-close fails nothing follows and its error is
    returned; if it succeeds, [conn.Close] on the cursor's connection
    follows at once and its answer is returned (with a nil connection
    nothing follows: the call panics).  A cursor with a nil stream panics
    before any call.  So whenever both calls occur, [CloseSend] comes
    strictly before [conn.Close], and [conn.Close] never occurs without a
    successful [CloseSend] before it. *)
Theorem Close_half_closes_first (it : iterator.t) (w : World) :
  ∃ evs,
    trace (iterator.Close it w).2 = trace w ++ evs
    ∧ half_close_first evs
    ∧ match iterator.client it with
      | None => evs = [] ∧ (iterator.Close it w).1 = Panicked
      | Some s =>
          match storepb.closeSend s with
          | Some e =>
              evs = [EvCloseSend] ∧ (iterator.Close it w).1 = Returned (Some e)
          | None =>
              match iterator.conn it with
              | Some c =>
                  evs = [EvCloseSend; EvConnClose c]
                  ∧ (iterator.Close it w).1
                    = Returned (if bool_decide (c ∈ open w) then None
                                else Some grpc.ErrClientConnClosing)
              | None => evs = [EvCloseSend] ∧ (iterator.Close it w).1 = Panicked
              end
          end
      end.
Proof.
  unfold iterator.Close, CloseSend, ClientConn_Close.
  destruct (iterator.client it) as [s |]; go_run.
  - destruct (storepb.closeSend s) as [e |]; simpl.
    + exists [EvCloseSend]. auto using half_close_first_only_CloseSend.
    + destruct (iterator.conn it) as [c |]; simpl.
      * exists [EvCloseSend; EvConnClose c].
        destruct (bool_decide (c ∈ open w)); simpl;
          (split; [by rewrite <- app_assoc |]);
          (split; [apply half_close_first_both | done]).
      * exists [EvCloseSend]. auto using half_close_first_only_CloseSend.
  - exists []. rewrite app_nil_r. auto using half_close_first_none.
Qed.

(** C1. A cursor obtained from [Read] whose stream refuses the half-close:
    iteration runs to the clean end of the stream, [Close] returns the
    [CloseSend] error, and the connection dialled by [Read] is still open;
    [conn.Close] was never called. *)
Theorem Close_leaves_conn_open_when_CloseSend_fails :
  ∃ it0 it1 it2 w1 w2,
    Read (Demo.env (Some Demo.stubborn, None)) Demo.reader Demo.background
      (Demo.params [Demo.job_prom]) Demo.w0 = (Returned (Some it0, None), w1)
    ∧ iterator.conn it0 = Some 0
    ∧ 0 ∈ open w1
    ∧ iterator.Next it0 = Returned (true, it1)
    ∧ iterator.Next it1 = Returned (false, it2)
    ∧ iterator.Err it2 = None
    ∧ iterator.Close it2 w1 = (Returned (Some (foreign "transport is closing")), w2)
    ∧ 0 ∈ open w2
    ∧ wire (trace w2)
      = [ EvDial 0 "store:10901";
          EvSeries 0 {| storepb.MinTime := 1000; storepb.MaxTime := 5000;
                        storepb.Matchers :=
                          [{| storepb.Type_ := storepb.EQ; storepb.Name := "job";
                              storepb.Value := "prom" |}];
                        storepb.PartialResponseStrategy_ := storepb.ABORT |};
          EvCloseSend ].
Proof.
  eexists _, _, _, _, _.
  split; [reflexivity |]. split; [reflexivity |]. simpl.
  split; [set_solver |].
  split; [reflexivity |]. split; [reflexivity |]. split; [reflexivity |].
  split; [reflexivity |]. simpl.
  split; [set_solver | reflexivity].
Qed.

(** ** [InsecureClient] and [Read] *)

Lemma wire_snoc t e : wire (t ++ [e]) = wire t ++ (if on_wire e then [e] else []).
Proof. unfold wire. rewrite List.filter_app. simpl. by destruct (on_wire e). Qed.

Lemma requests_app t1 t2 : requests (t1 ++ t2) = requests t1 ++ requests t2.
Proof.
  induction t1 as [| e t1 IH]; [reflexivity |].
  destruct e; simpl; by rewrite IH.
Qed.

Lemma requests_wire t : requests (wire t) = requests t.
Proof.
  induction t as [| e t IH]; [reflexivity |].
  destruct e; simpl; by rewrite ?IH.
Qed.

(** Building the dial options never panics and puts nothing on the wire. *)
Lemma InsecureClient_quiet env logger reg tracer secure cert key caCert serverName w :
  ∃ r w',
    InsecureClient env logger reg tracer secure cert key caCert serverName w
    = (Returned r, w')
    ∧ open w' = open w ∧ fresh w' = fresh w ∧ wire (trace w') = wire (trace w).
Proof.
  unfold InsecureClient. go_run.
  destruct reg as [r |]; simpl;
    match goal with
    | |- context [newCustomClientConfig _ _ _ _ _ _ _ ?w0] =>
        destruct (newCustomClientConfig_quiet env logger cert key caCert serverName
                    (negb secure) w0) as ([cfg err] & w2 & -> & Ho & Hf & Ht)
    end; simpl in *;
    rewrite ?wire_snoc in Ht; simpl in Ht; rewrite ?app_nil_r in Ht;
    destruct err; simpl; eexists _, _; (split; [reflexivity |]); done.
Qed.

(** [Read] never panics, and every call ends in one of the listed ways. *)
Lemma Read_outcomes env i ctx params w :
  ∃ r w', Read env i ctx params w = (Returned r, w')
          ∧ Read_outcome env i ctx params w r w'.
Proof.
  destruct (InsecureClient_quiet env (logger i) None NoopTracer
              (negb (series.InsecureSkipVerify (series.TLSConfig_ (conf i))))
              (series.CertFile (series.TLSConfig_ (conf i)))
              (series.KeyFile (series.TLSConfig_ (conf i)))
              (series.CAFile (series.TLSConfig_ (conf i)))
              (series.ServerName (series.TLSConfig_ (conf i))) w)
    as ([opts err] & w1 & Hopts & Ho & Hf & Ht).
  unfold Read, grpc_DialContext, StoreClient_Series. go_run. rewrite Hopts. simpl.
  destruct err as [e0 |]; simpl.
  { eexists _, _. split; [reflexivity |]. by eapply Read_no_options. }
  destruct (dial_failure env ctx (series.Endpoint (conf i)) opts) as [e0 |] eqn:Hdial; simpl.
  { eexists _, _. split; [reflexivity |]. by eapply Read_no_conn. }
  destruct (storepb_TranslatePromMatchers env (series.Matchers params))
    as [ms [e0 |]] eqn:Hms; simpl.
  { eexists _, _. split; [reflexivity |]. eapply Read_bad_matchers; simpl; [done | ..].
    - by rewrite Ho, Hf.
    - by rewrite wire_snoc, Ht, Hf. }
  change {| storepb.MinTime := _; storepb.MaxTime := _; storepb.Matchers := ms;
            storepb.PartialResponseStrategy_ := _ |}
    with (Read_request env params ms).
  destruct (remote_Series env ctx (Read_request env params ms)) as [s [e0 |]] eqn:Hs; simpl.
  - eexists _, _. split; [reflexivity |]. eapply Read_no_stream; simpl; [done | done | ..].
    + by rewrite Ho, Hf.
    + by rewrite !wire_snoc, Ht, Hf, <- app_assoc.
  - eexists _, _. split; [reflexivity |]. rewrite Hf.
    eapply Read_cursor; simpl; [done | done | ..].
    + by rewrite Ho.
    + by rewrite !wire_snoc, Ht, <- app_assoc.
Qed.

(** A cursor handed out by [Read] has recorded no error, has no current
    series, and owns the connection that [Read] dialled, which is open. *)
Lemma Read_cursor_state env i ctx params w it e w' :
  Read env i ctx params w = (Returned (Some it, e), w') →
  e = None
  ∧ iterator.Err it = None
  ∧ iterator.currentSeries it = None
  ∧ iterator.conn it = Some (fresh w)
  ∧ fresh w ∈ open w'.
Proof.
  intros Hread. destruct (Read_outcomes env i ctx params w) as (r & w1 & Heq & Hout).
  rewrite Hread in Heq. injection Heq as <- <-.
  inversion Hout as [| | | | ms s w2 Hms Hs Hopen Hwire]; subst.
  repeat split; try done. rewrite Hopen.
  apply elem_of_union_l. by apply elem_of_singleton.
Qed.

(** A failed [Read] returns no cursor, and its error has the cause of the
    library error that stopped it. *)
Lemma Read_failure_cause env i ctx params w r e w' :
  Read env i ctx params w = (Returned (r, Some e), w') →
  r = None
  ∧ ∃ e0, Cause e = Cause e0
          ∧ ((∃ opts w1, Read_options env i w = (Returned (opts, Some e0), w1))
             ∨ (∃ opts, dial_failure env ctx (series.Endpoint (conf i)) opts = Some e0)
             ∨ (storepb_TranslatePromMatchers env (series.Matchers params)).2 = Some e0
             ∨ (∃ req, (remote_Series env ctx req).2 = Some e0)).
Proof.
  intros Hread. destruct (Read_outcomes env i ctx params w) as (r1 & w1 & Heq & Hout).
  rewrite Hread in Heq. injection Heq as <- <-.
  inversion Hout; subst; (split; [reflexivity |]); eexists.
  - split; [| left; eauto]. reflexivity.
  - split; [| right; left; eauto]. reflexivity.
  - split; [| right; right; left].
    2: match goal with H : storepb_TranslatePromMatchers _ _ = _ |- _ => by rewrite H end.
    reflexivity.
  - split; [| right; right; right; eexists].
    2: match goal with H : remote_Series _ _ _ = _ |- _ => by rewrite H end.
    reflexivity.
Qed.

(** A [Read] that fails after the dial leaves the dialled connection open:
    nothing on its way out closes it. *)
Lemma Read_failure_after_dial env i ctx params w r e w' :
  Read env i ctx params w = (Returned (r, Some e), w') →
  open w' = open w
  ∨ (fresh w ∈ open w'
     ∧ ∃ evs, wire (trace w')
              = wire (trace w) ++ EvDial (fresh w) (series.Endpoint (conf i)) :: evs
              ∧ ∀ c, EvConnClose c ∉ evs).
Proof.
  intros Hread. destruct (Read_outcomes env i ctx params w) as (r1 & w1 & Heq & Hout).
  rewrite Hread in Heq. injection Heq as <- <-.
  inversion Hout as [opts e0 w2 Hopts Ho | opts w2 e0 w3 Hopts Hdial Ho
                     | ms e0 w2 Hms Ho Ht | ms s e0 w2 Hms Hs Ho Ht |]; subst;
    [by left | by left | right | right].
  - split; [rewrite Ho; apply elem_of_union_l; by apply elem_of_singleton |].
    exists []. split; [done |]. intros c. apply not_elem_of_nil.
  - split; [rewrite Ho; apply elem_of_union_l; by apply elem_of_singleton |].
    eexists. split; [exact Ht |]. intros c [= ]%list_elem_of_singleton.
Qed.

(** C4. Every successful [Read] puts exactly one [Series] request on the
    wire, on the connection it dialled: the time bounds are
    [timestamp.FromTime] of the parameters' bounds, the matchers are the
    [storepb] translation of the parameters' matchers, and the partial
    response strategy is [ABORT].  The cursor keeps the same bounds. *)
Theorem Read_sends_translated_request env i ctx params w r w' :
  Read env i ctx params w = (Returned (r, None), w') →
  ∃ it ms,
    r = Some it
    ∧ storepb_TranslatePromMatchers env (series.Matchers params) = (ms, None)
    ∧ requests (trace w')
      = requests (trace w)
        ++ [(fresh w,
             {| storepb.MinTime := timestamp_FromTime env (series.MinTime params);
                storepb.MaxTime := timestamp_FromTime env (series.MaxTime params);
                storepb.Matchers := ms;
                storepb.PartialResponseStrategy_ := storepb.ABORT |})]
    ∧ iterator.mint it = timestamp_FromTime env (series.MinTime params)
    ∧ iterator.maxt it = timestamp_FromTime env (series.MaxTime params).
Proof.
  intros Hread. destruct (Read_outcomes env i ctx params w) as (r1 & w1 & Heq & Hout).
  rewrite Hread in Heq. injection Heq as <- <-.
  inversion Hout as [| | | | ms s w2 Hms Hs Hopen Hwire]; subst.
  eexists _, ms. split; [reflexivity |]. split; [exact Hms |].
  split; [| done].
  rewrite <- (requests_wire (trace w')), Hwire, requests_app, requests_wire.
  reflexivity.
Qed.

Lemma Read_sends_translated_request_witness :
  ∃ it w',
    Read (Demo.env (Some Demo.warned, None)) Demo.reader Demo.background
      (Demo.params [Demo.job_prom]) Demo.w0 = (Returned (Some it, None), w')
    ∧ requests (trace w')
      = [(0, {| storepb.MinTime := 1000;
                storepb.MaxTime := 5000;
                storepb.Matchers :=
                  [{| storepb.Type_ := storepb.EQ; storepb.Name := "job";
                      storepb.Value := "prom" |}];
                storepb.PartialResponseStrategy_ := storepb.ABORT |})].
Proof.
  eexists _, _. split; [reflexivity |].
  destruct (Read_sends_translated_request
              (Demo.env (Some Demo.warned, None)) Demo.reader Demo.background
              (Demo.params [Demo.job_prom]) Demo.w0 _ _ eq_refl)
    as (it & ms & _ & Hms & Hreq & _).
  injection Hms as <-. exact Hreq.
Defined.

(** C3. Two failing calls of [Read] that come after a successful dial: a
    matcher of an unknown type, and a store that refuses the [Series] call.
    Each returns a nil cursor and the error with its cause, and each leaves
    the dialled connection open: no [conn.Close] is on the trace. *)
Theorem Read_failure_leaves_conn_open :
  (∃ w',
     Read (Demo.env (Some Demo.warned, None)) Demo.reader Demo.background
       (Demo.params [Demo.job_prom; Demo.odd_matcher]) Demo.w0
     = (Returned (None, Some (errors_New "unrecognized matcher type")), w')
     ∧ 0 ∈ open w'
     ∧ wire (trace w') = [EvDial 0 "store:10901"])
  ∧ (∃ e w',
       Read (Demo.env (None, Some (foreign "rpc error: code = Unavailable")))
         Demo.reader Demo.background (Demo.params [Demo.job_prom]) Demo.w0
       = (Returned (None, Some e), w')
       ∧ Cause e = foreign "rpc error: code = Unavailable"
       ∧ 0 ∈ open w'
       ∧ wire (trace w')
         = [EvDial 0 "store:10901";
            EvSeries 0 {| storepb.MinTime := 1000; storepb.MaxTime := 5000;
                          storepb.Matchers :=
                            [{| storepb.Type_ := storepb.EQ; storepb.Name := "job";
                                storepb.Value := "prom" |}];
                          storepb.PartialResponseStrategy_ := storepb.ABORT |}]).
Proof.
  split.
  - eexists. split; [reflexivity |]. simpl. split; [set_solver | reflexivity].
  - eexists _, _. split; [reflexivity |]. simpl.
    split; [reflexivity |]. split; [set_solver | reflexivity].
Qed.

(** * Further properties of the client *)

(** Turns the recorded answers of boolean tests into propositions. *)
Ltac go_facts :=
  repeat match goal with
         | H : bool_decide _ = true |- _ => apply bool_decide_eq_true in H
         | H : bool_decide _ = false |- _ => apply bool_decide_eq_false in H
         | H : nonempty _ = true |- _ => apply nonempty_spec in H
         end.

(** ** More on [newCustomClientConfig] *)

(** X1. [newCustomClientConfig] never panics and never returns a
    configuration together with an error.  It returns neither (a nil
    configuration and a nil error) exactly when a CA file is given, is read
    without error and holds no certificate. *)
Theorem newCustomClientConfig_result_shape
    env logger cert key caCert serverName skip w :
  ∃ cfg e w',
    newCustomClientConfig env logger cert key caCert serverName skip w
    = (Returned (cfg, e), w')
    ∧ (cfg = None ∨ e = None)
    ∧ (cfg = None ∧ e = None
       ↔ nonempty caCert = true
         ∧ (ioutil_ReadFile env caCert).2 = None
         ∧ pem_certificates env (ioutil_ReadFile env caCert).1 = []).
Proof.
  unfold newCustomClientConfig, AppendCertsFromPEM. go_run.
  repeat go_case; eexists _, _, _; (split; [reflexivity |]); go_facts;
    (split; [auto |]); intuition congruence.
Qed.

(** X2. Every error of [newCustomClientConfig] comes with a nil
    configuration and names the step that failed: an unreadable CA file
    ("reading client CA"), an unavailable system pool ("reading system
    certificate pool"), a key without certificate or the reverse, or a
    client pair that does not load ("client credentials").  The library
    error is kept as the cause. *)
Theorem newCustomClientConfig_error_names_step
    env logger cert key caCert serverName skip w cfg e w' :
  newCustomClientConfig env logger cert key caCert serverName skip w
  = (Returned (cfg, Some e), w') →
  cfg = None
  ∧ ((caCert ≠ ""
      ∧ ∃ e0, (ioutil_ReadFile env caCert).2 = Some e0
              ∧ e = withMessage e0 "reading client CA")
     ∨ (caCert = ""
        ∧ ∃ e0, (x509_SystemCertPool env).2 = Some e0
                ∧ e = withMessage e0 "reading system certificate pool")
     ∨ (exactly_one cert key ∧ e = errors_New both_required)
     ∨ (cert ≠ "" ∧ key ≠ ""
        ∧ ∃ e0, (tls_LoadX509KeyPair env cert key).2 = Some e0
                ∧ e = withMessage e0 "client credentials")).
Proof.
  unfold newCustomClientConfig, AppendCertsFromPEM, exactly_one, nonempty. go_run.
  repeat go_case; intros [= <- <- <-]; go_facts; (split; [reflexivity |]).
  all: repeat match goal with
              | H : ¬ ?s ≠ "" |- _ => apply dec_stable in H
              end.
  all: eauto 10.
Qed.

Lemma newCustomClientConfig_error_names_step_witness :
  let env := Demo.env (None, None) in
  let e := withMessage (foreign "tls: failed to find any PEM data") "client credentials" in
  (None : option tls.Config) = None
  ∧ (("ca.pem" ≠ ""
      ∧ ∃ e0, (ioutil_ReadFile env "ca.pem").2 = Some e0
              ∧ e = withMessage e0 "reading client CA")
     ∨ ("ca.pem" = ""
        ∧ ∃ e0, (x509_SystemCertPool env).2 = Some e0
                ∧ e = withMessage e0 "reading system certificate pool")
     ∨ (exactly_one "client.crt" "other.key" ∧ e = errors_New both_required)
     ∨ ("client.crt" ≠ "" ∧ "other.key" ≠ ""
        ∧ ∃ e0, (tls_LoadX509KeyPair env "client.crt" "other.key").2 = Some e0
                ∧ e = withMessage e0 "client credentials")).
Proof.
  intros env e.
  eapply (newCustomClientConfig_error_names_step env Demo.log
            "client.crt" "other.key" "ca.pem" "" false Demo.w0).
  reflexivity.
Defined.

(** X3. [newCustomClientConfig] returns a configuration exactly when the
    root pool is available and the client pair is usable; the configuration
    is then the one the arguments describe (roots from the CA file or else
    the system pool, the verification switch, the client pair when one is
    given), with a nil error. *)
Theorem newCustomClientConfig_succeeds_iff
    env logger cert key caCert serverName skip w :
  (∀ cfg e w',
     newCustomClientConfig env logger cert key caCert serverName skip w
     = (Returned (Some cfg, e), w') →
     e = None ∧ cfg = described_config env cert key caCert skip
     ∧ pool_available env caCert ∧ client_pair_ok env cert key)
  ∧ (pool_available env caCert → client_pair_ok env cert key →
     ∃ w', newCustomClientConfig env logger cert key caCert serverName skip w
           = (Returned (Some (described_config env cert key caCert skip), None), w')).
Proof.
  unfold newCustomClientConfig, AppendCertsFromPEM, described_config,
    pool_available, client_pair_ok, nonempty.
  go_run. split.
  - intros cfg e w'.
    repeat go_case; intros [= <- <- <-]; go_facts;
      repeat match goal with
             | H : ¬ ?s ≠ "" |- _ => apply dec_stable in H
             end;
      intuition (eauto; congruence).
  - repeat go_case; go_facts;
      repeat match goal with
             | H : ¬ ?s ≠ "" |- _ => apply dec_stable in H
             end;
      intros Hpool Hpair; try (eexists; reflexivity);
      exfalso; intuition (eauto; congruence).
Qed.

Lemma newCustomClientConfig_succeeds_iff_witness :
  ∃ w', newCustomClientConfig (Demo.env (None, None)) Demo.log
          "client.crt" "client.key" "ca.pem" "" true Demo.w0
        = (Returned (Some {| tls.RootCAs := Some ["store-ca"];
                             tls.InsecureSkipVerify := true;
                             tls.Certificates := ["client-pair"];
                             tls.ServerName := "" |}, None), w').
Proof.
  apply (proj2 (newCustomClientConfig_succeeds_iff (Demo.env (None, None)) Demo.log
                  "client.crt" "client.key" "ca.pem" "" true Demo.w0)).
  - split; [reflexivity | discriminate].
  - right. split; [discriminate |]. split; [discriminate | reflexivity].
Defined.

(** ** More on [InsecureClient] *)

(** The result of [InsecureClient] in terms of the configuration it asks
    for. *)
Lemma InsecureClient_result
    env logger reg tracer secure cert key caCert serverName w opts e w' :
  InsecureClient env logger reg tracer secure cert key caCert serverName w
  = (Returned (opts, e), w') →
  ∃ cfg w0,
    newCustomClientConfig env logger cert key caCert serverName (negb secure) w0
    = (Returned (cfg, e), w')
    ∧ opts = (if notnil e then []
              else base_options tracer ++ [grpc.WithTransportCredentials cfg]).
Proof.
  unfold InsecureClient. go_run.
  destruct reg as [r |]; simpl;
    match goal with
    | |- context [newCustomClientConfig _ _ _ _ _ _ _ ?w0] =>
        destruct (newCustomClientConfig env logger cert key caCert serverName
                    (negb secure) w0) as [[[cfg err] |] w2] eqn:Hcfg
    end; simpl; try discriminate;
    destruct err; simpl; intros [= <- <- <-]; eauto.
Qed.

(** X4. When [InsecureClient] fails it returns no options.  When it
    succeeds it returns four options, in this order: the receive limit of
    [math.MaxInt32] bytes, the unary and the stream interceptor chains
    (metrics, then tracing), and the transport credentials; a TLS
    configuration inside the credentials is the one the arguments describe,
    with certificate verification skipped exactly when [secure] is false. *)
Theorem InsecureClient_options
    env logger reg tracer secure cert key caCert serverName w opts e w' :
  InsecureClient env logger reg tracer secure cert key caCert serverName w
  = (Returned (opts, e), w') →
  (e ≠ None → opts = [])
  ∧ (e = None →
     ∃ cfg,
       opts = [ grpc.WithDefaultCallOptions_MaxCallRecvMsgSize 2147483647;
                grpc.WithUnaryInterceptor
                  [grpc.metricsInterceptor; grpc.tracingInterceptor tracer];
                grpc.WithStreamInterceptor
                  [grpc.metricsInterceptor; grpc.tracingInterceptor tracer];
                grpc.WithTransportCredentials cfg ]
       ∧ ∀ c, cfg = Some c →
              c = described_config env cert key caCert (negb secure)
              ∧ tls.InsecureSkipVerify c = negb secure).
Proof.
  intros (cfg & w0 & Hcfg & ->)%InsecureClient_result. split.
  - by destruct e.
  - intros ->. exists cfg. split; [reflexivity |]. intros c ->.
    apply newCustomClientConfig_fields in Hcfg as (_ & Hroots & Hskip & Hcerts & Hname).
    split; [| exact Hskip].
    destruct c. unfold described_config. simpl in *. by subst.
Qed.

Lemma InsecureClient_options_witness :
  ∃ opts w',
    InsecureClient (Demo.env (None, None)) Demo.log (Some "registry") NoopTracer
      true "" "" "ca.pem" "" Demo.w0 = (Returned (opts, None), w')
    ∧ ∃ cfg,
        opts = [ grpc.WithDefaultCallOptions_MaxCallRecvMsgSize 2147483647;
                 grpc.WithUnaryInterceptor
                   [grpc.metricsInterceptor; grpc.tracingInterceptor NoopTracer];
                 grpc.WithStreamInterceptor
                   [grpc.metricsInterceptor; grpc.tracingInterceptor NoopTracer];
                 grpc.WithTransportCredentials cfg ]
        ∧ ∀ c, cfg = Some c →
               c = described_config (Demo.env (None, None)) "" "" "ca.pem" (negb true)
               ∧ tls.InsecureSkipVerify c = negb true.
Proof.
  eexists _, _. split; [reflexivity |].
  eapply (proj2 (InsecureClient_options (Demo.env (None, None)) Demo.log
                   (Some "registry") NoopTracer true "" "" "ca.pem" "" Demo.w0
                   _ None _ eq_refl)).
  reflexivity.
Defined.

(** ** More on [Read] *)

(** [Read] step by step: the options, the dial, the translation of the
    matchers and the [Series] call, with the result and the world at each
    way out. *)
Lemma Read_stages env i ctx params w :
  ∃ opts e1 w1,
    Read_options env i w = (Returned (opts, e1), w1)
    ∧ open w1 = open w ∧ fresh w1 = fresh w ∧ wire (trace w1) = wire (trace w)
    ∧ match e1 with
      | Some e0 =>
          Read env i ctx params w
          = (Returned (None, Some (withMessage e0 "error initializing GRPC options")), w1)
      | None =>
          match dial_failure env ctx (series.Endpoint (conf i)) opts with
          | Some e0 =>
              Read env i ctx params w
              = (Returned
                   (None, Some (withMessage e0 "error initializing GRPC dial context")),
                 w1)
          | None =>
              ∃ w2,
                open w2 = {[fresh w]} ∪ open w
                ∧ wire (trace w2)
                  = wire (trace w) ++ [EvDial (fresh w) (series.Endpoint (conf i))]
                ∧ match storepb_TranslatePromMatchers env (series.Matchers params) with
                  | (_, Some e0) =>
                      Read env i ctx params w = (Returned (None, Some e0), w2)
                  | (ms, None) =>
                      let w3 := emit (EvSeries (fresh w) (Read_request env params ms)) w2 in
                      match remote_Series env ctx (Read_request env params ms) with
                      | (_, Some e0) =>
                          Read env i ctx params w
                          = (Returned
                               (None,
                                Some (withMessage e0
                                        ("storepb.Series against "
                                         +:+ series.Endpoint (conf i)))), w3)
                      | (s, None) =>
                          Read env i ctx params w
                          = (Returned
                               (Some {| iterator.ctx := ctx;
                                        iterator.conn := Some (fresh w);
                                        iterator.client := s;
                                        iterator.currentSeries := None;
                                        iterator.mint :=
                                          timestamp_FromTime env (series.MinTime params);
                                        iterator.maxt :=
                                          timestamp_FromTime env (series.MaxTime params);
                                        iterator.err := None |}, None), w3)
                      end
                  end
          end
      end.
Proof.
  destruct (InsecureClient_quiet env (logger i) None NoopTracer
              (negb (series.InsecureSkipVerify (series.TLSConfig_ (conf i))))
              (series.CertFile (series.TLSConfig_ (conf i)))
              (series.KeyFile (series.TLSConfig_ (conf i)))
              (series.CAFile (series.TLSConfig_ (conf i)))
              (series.ServerName (series.TLSConfig_ (conf i))) w)
    as ([opts err] & w1 & Hopts & Ho & Hf & Ht).
  exists opts, err, w1. split; [exact Hopts |]. do 3 (split; [done |]).
  unfold Read, grpc_DialContext, StoreClient_Series. go_run. rewrite Hopts. simpl.
  destruct err as [e0 |]; simpl; [reflexivity |].
  destruct (dial_failure env ctx (series.Endpoint (conf i)) opts) as [e0 |]; simpl;
    [reflexivity |].
  eexists. split; [| split]; [| | destruct (storepb_TranslatePromMatchers env _)
                                     as [ms [e0 |]]; simpl; [reflexivity |]].
  - simpl. by rewrite Ho, Hf.
  - simpl. by rewrite wire_snoc, Ht, Hf.
  - change {| storepb.MinTime := _; storepb.MaxTime := _; storepb.Matchers := ms;
              storepb.PartialResponseStrategy_ := _ |}
      with (Read_request env params ms).
    rewrite <- Hf.
    destruct (remote_Series env ctx (Read_request env params ms)) as [s [e0 |]];
      reflexivity.
Qed.

(** With exactly one of the two paths given and the root pool available,
    the configuration step ends in the "both ... must be provided" error,
    whatever the world. *)
Lemma newCustomClientConfig_pair_error env logger cert key caCert serverName skip w :
  exactly_one cert key → pool_available env caCert →
  (newCustomClientConfig env logger cert key caCert serverName skip w).1
  = Returned (None, Some (errors_New both_required)).
Proof.
  intros Hone%exactly_one_xorb.
  unfold pool_available, newCustomClientConfig, AppendCertsFromPEM.
  rewrite Hone. go_run.
  destruct (nonempty caCert).
  - destruct (ioutil_ReadFile env caCert) as [pem err]. simpl.
    intros [-> Hcerts]. simpl. by rewrite (bool_decide_eq_false_2 _ Hcerts).
  - destruct (x509_SystemCertPool env) as [pool err]. simpl. by intros ->.
Qed.

(** With a CA file that is read and holds no certificate, the
    configuration step ends with neither a configuration nor an error,
    whatever the world. *)
Lemma newCustomClientConfig_no_certificate env logger cert key caCert serverName skip w :
  caCert ≠ "" →
  (ioutil_ReadFile env caCert).2 = None →
  pem_certificates env (ioutil_ReadFile env caCert).1 = [] →
  (newCustomClientConfig env logger cert key caCert serverName skip w).1
  = Returned (None, None).
Proof.
  intros Hca Hread Hpem. unfold newCustomClientConfig, AppendCertsFromPEM.
  rewrite (nonempty_true _ Hca).
  destruct (ioutil_ReadFile env caCert) as [pem err]. simpl in *. subst err.
  go_run. by rewrite Hpem.
Qed.

(** X5. [Read] returns a cursor exactly when all four steps succeed: the
    dial options are built, the dial succeeds, the matchers translate, and
    the store accepts the [Series] call. *)
Theorem Read_succeeds_iff env i ctx params w :
  (∃ it w', Read env i ctx params w = (Returned (Some it, None), w'))
  ↔ ∃ opts w1 ms s,
      InsecureClient env (logger i) None NoopTracer
        (negb (series.InsecureSkipVerify (series.TLSConfig_ (conf i))))
        (series.CertFile (series.TLSConfig_ (conf i)))
        (series.KeyFile (series.TLSConfig_ (conf i)))
        (series.CAFile (series.TLSConfig_ (conf i)))
        (series.ServerName (series.TLSConfig_ (conf i))) w
      = (Returned (opts, None), w1)
      ∧ dial_failure env ctx (series.Endpoint (conf i)) opts = None
      ∧ storepb_TranslatePromMatchers env (series.Matchers params) = (ms, None)
      ∧ remote_Series env ctx
          {| storepb.MinTime := timestamp_FromTime env (series.MinTime params);
             storepb.MaxTime := timestamp_FromTime env (series.MaxTime params);
             storepb.Matchers := ms;
             storepb.PartialResponseStrategy_ := storepb.ABORT |}
        = (s, None).
Proof.
  destruct (Read_stages env i ctx params w)
    as (opts & e1 & w1 & Hopts & _ & _ & _ & Hrun).
  unfold Read_options in Hopts. fold (Read_request env params).
  split.
  - intros (it & w' & Hread). rewrite Hread in Hrun.
    destruct e1 as [e0 |]; [discriminate |].
    destruct (dial_failure env ctx (series.Endpoint (conf i)) opts) eqn:Hdial;
      [discriminate |].
    destruct Hrun as (w2 & _ & _ & Hrun).
    destruct (storepb_TranslatePromMatchers env (series.Matchers params))
      as [ms [e0 |]] eqn:Hms; [discriminate |].
    destruct (remote_Series env ctx (Read_request env params ms))
      as [s [e0 |]] eqn:Hs; [discriminate |].
    by exists opts, w1, ms, s.
  - intros (opts' & w1' & ms & s & Hopts' & Hdial & Hms & Hs).
    rewrite Hopts' in Hopts. injection Hopts as <- <- <-.
    rewrite Hdial in Hrun. destruct Hrun as (w2 & _ & _ & Hrun).
    rewrite Hms in Hrun. unfold Read_request in *. simpl in Hrun.
    rewrite Hs in Hrun. eauto.
Qed.

(** X6. A failing [Read] returns no cursor, and its error tells the step:
    the options error wrapped in "error initializing GRPC options", the
    dial error wrapped in "error initializing GRPC dial context", the
    translation error as it is, or the error of the [Series] call wrapped
    in "storepb.Series against <endpoint>". *)
Theorem Read_error_names_step env i ctx params w r e w' :
  Read env i ctx params w = (Returned (r, Some e), w') →
  r = None
  ∧ ((∃ opts e0 w1,
        Read_options env i w = (Returned (opts, Some e0), w1)
        ∧ e = withMessage e0 "error initializing GRPC options")
     ∨ (∃ opts e0,
          dial_failure env ctx (series.Endpoint (conf i)) opts = Some e0
          ∧ e = withMessage e0 "error initializing GRPC dial context")
     ∨ (∃ ms, storepb_TranslatePromMatchers env (series.Matchers params) = (ms, Some e))
     ∨ (∃ ms s e0,
          storepb_TranslatePromMatchers env (series.Matchers params) = (ms, None)
          ∧ remote_Series env ctx (Read_request env params ms) = (s, Some e0)
          ∧ e = withMessage e0 ("storepb.Series against " +:+ series.Endpoint (conf i)))).
Proof.
  intros Hread.
  destruct (Read_stages env i ctx params w)
    as (opts & e1 & w1 & Hopts & _ & _ & _ & Hrun).
  rewrite Hread in Hrun.
  destruct e1 as [e0 |].
  { injection Hrun as -> -> ->. split; [done |]. left. eauto. }
  destruct (dial_failure env ctx (series.Endpoint (conf i)) opts) as [e0 |] eqn:Hdial.
  { injection Hrun as -> -> ->. split; [done |]. right; left. eauto. }
  destruct Hrun as (w2 & _ & _ & Hrun).
  destruct (storepb_TranslatePromMatchers env (series.Matchers params))
    as [ms [e0 |]] eqn:Hms.
  { injection Hrun as -> -> ->. split; [done |]. right; right; left. eauto. }
  simpl in Hrun.
  destruct (remote_Series env ctx (Read_request env params ms)) as [s [e0 |]] eqn:Hs;
    [| discriminate].
  injection Hrun as -> -> ->. split; [done |]. right; right; right. eauto 6.
Qed.

Lemma Read_error_names_step_witness :
  let env := Demo.env (Some Demo.warned, None) in
  let nowhere : Series :=
    {| logger := Demo.log;
       conf := {| series.Endpoint := "";
                  series.TLSConfig_ := series.TLSConfig_ (conf Demo.reader) |} |} in
  let e := withMessage (foreign "dial: missing address")
             "error initializing GRPC dial context" in
  (None : option iterator.t) = None
  ∧ ((∃ opts e0 w1,
        Read_options env nowhere Demo.w0 = (Returned (opts, Some e0), w1)
        ∧ e = withMessage e0 "error initializing GRPC options")
     ∨ (∃ opts e0,
          dial_failure env Demo.background (series.Endpoint (conf nowhere)) opts = Some e0
          ∧ e = withMessage e0 "error initializing GRPC dial context")
     ∨ (∃ ms, storepb_TranslatePromMatchers env
                (series.Matchers (Demo.params [Demo.job_prom])) = (ms, Some e))
     ∨ (∃ ms s e0,
          storepb_TranslatePromMatchers env
            (series.Matchers (Demo.params [Demo.job_prom])) = (ms, None)
          ∧ remote_Series env Demo.background
              (Read_request env (Demo.params [Demo.job_prom]) ms) = (s, Some e0)
          ∧ e = withMessage e0
                  ("storepb.Series against " +:+ series.Endpoint (conf nowhere)))).
Proof.
  intros env nowhere e.
  eapply (Read_error_names_step env nowhere Demo.background
            (Demo.params [Demo.job_prom]) Demo.w0).
  reflexivity.
Defined.

(** X7. [Read] never panics.  It dials at most once and sends at most one
    [Series] request, on the connection it dialled; it closes nothing, so
    every connection open before is open after; and a cursor it returns
    holds the connection it dialled. *)
Theorem Read_dials_once_closes_nothing env i ctx params w :
  ∃ r w' evs,
    Read env i ctx params w = (Returned r, w')
    ∧ wire (trace w') = wire (trace w) ++ evs
    ∧ open w ⊆ open w'
    ∧ ((evs = [] ∧ open w' = open w ∧ r.1 = None)
       ∨ (open w' = {[fresh w]} ∪ open w
          ∧ (∀ it, r.1 = Some it → iterator.conn it = Some (fresh w))
          ∧ ((evs = [EvDial (fresh w) (series.Endpoint (conf i))] ∧ r.1 = None)
             ∨ ∃ req, evs = [EvDial (fresh w) (series.Endpoint (conf i));
                             EvSeries (fresh w) req]))).
Proof.
  destruct (Read_outcomes env i ctx params w) as (r & w' & Hread & Hout).
  exists r, w'.
  inversion Hout as [opts e0 w1 Hopts Ho Ht | opts w1 e0 w2 Hopts Hdial Ho Ht
                     | ms e0 w1 Hms Ho Ht | ms s e0 w1 Hms Hs Ho Ht
                     | ms s w1 Hms Hs Ho Ht]; subst.
  - exists []. rewrite app_nil_r, Ho. repeat (split; [done |]). by left.
  - exists []. rewrite app_nil_r, Ho. repeat (split; [done |]). by left.
  - eexists. split; [done |]. split; [exact Ht |]. rewrite Ho.
    split; [apply union_subseteq_r |]. right. split; [done |]. split; [done |]. by left.
  - eexists. split; [done |]. split; [exact Ht |]. rewrite Ho.
    split; [apply union_subseteq_r |]. right. split; [done |]. split; [done |]. eauto.
  - eexists. split; [done |]. split; [exact Ht |]. rewrite Ho.
    split; [apply union_subseteq_r |]. right. split; [done |].
    split; [by intros it [= <-] |]. eauto.
Qed.

(** X8. When the configuration gives exactly one of the client
    certificate file and the client key file, and the root pool is
    available, [Read] fails before it dials: the error is "both client key
    and certificate must be provided" wrapped in "error initializing GRPC
    options", no connection is opened and nothing goes on the wire. *)
Theorem Read_refuses_half_a_client_pair env i ctx params w :
  exactly_one (series.CertFile (series.TLSConfig_ (conf i)))
              (series.KeyFile (series.TLSConfig_ (conf i))) →
  pool_available env (series.CAFile (series.TLSConfig_ (conf i))) →
  ∃ w',
    Read env i ctx params w
    = (Returned (None, Some (withMessage (errors_New both_required)
                               "error initializing GRPC options")), w')
    ∧ open w' = open w
    ∧ wire (trace w') = wire (trace w).
Proof.
  intros Hone Hpool.
  destruct (Read_stages env i ctx params w)
    as (opts & e1 & w1 & Hopts & Ho & _ & Ht & Hrun).
  apply InsecureClient_result in Hopts as (cfg & w0 & Hcfg & _).
  pose proof (newCustomClientConfig_pair_error env (logger i) _ _ _
                (series.ServerName (series.TLSConfig_ (conf i)))
                (negb (negb (series.InsecureSkipVerify (series.TLSConfig_ (conf i)))))
                w0 Hone Hpool) as Hpair.
  rewrite Hcfg in Hpair. injection Hpair as -> ->. eauto.
Qed.

Lemma Read_refuses_half_a_client_pair_witness :
  let half : Series :=
    {| logger := Demo.log; conf := Demo.store_conf "ca.pem" "client.crt" "" "" |} in
  ∃ w',
    Read (Demo.env (Some Demo.warned, None)) half Demo.background
      (Demo.params [Demo.job_prom]) Demo.w0
    = (Returned (None, Some (withMessage (errors_New both_required)
                               "error initializing GRPC options")), w')
    ∧ open w' = open Demo.w0
    ∧ wire (trace w') = wire (trace Demo.w0).
Proof.
  intros half.
  apply (Read_refuses_half_a_client_pair (Demo.env (Some Demo.warned, None)) half).
  - left. split; [discriminate | reflexivity].
  - split; [reflexivity | discriminate].
Defined.

(** X9. A CA file that is read and holds no certificate does not stop
    [Read]: no configuration error is raised, and [Read] dials with
    transport credentials made from a nil TLS configuration.  If that dial
    succeeds, the connection is open when [Read] returns. *)
Theorem Read_dials_despite_empty_CA_bundle env i ctx params w :
  series.CAFile (series.TLSConfig_ (conf i)) ≠ "" →
  (ioutil_ReadFile env (series.CAFile (series.TLSConfig_ (conf i)))).2 = None →
  pem_certificates env
    (ioutil_ReadFile env (series.CAFile (series.TLSConfig_ (conf i)))).1 = [] →
  dial_failure env ctx (series.Endpoint (conf i))
    (base_options NoopTracer ++ [grpc.WithTransportCredentials None]) = None →
  ∃ r w' evs,
    Read env i ctx params w = (Returned r, w')
    ∧ fresh w ∈ open w'
    ∧ wire (trace w')
      = wire (trace w) ++ EvDial (fresh w) (series.Endpoint (conf i)) :: evs.
Proof.
  intros Hca Hfile Hpem Hdial.
  destruct (Read_stages env i ctx params w)
    as (opts & e1 & w1 & Hopts & _ & _ & _ & Hrun).
  apply InsecureClient_result in Hopts as (cfg & w0 & Hcfg & ->).
  pose proof (newCustomClientConfig_no_certificate env (logger i)
                (series.CertFile (series.TLSConfig_ (conf i)))
                (series.KeyFile (series.TLSConfig_ (conf i))) _
                (series.ServerName (series.TLSConfig_ (conf i)))
                (negb (negb (series.InsecureSkipVerify (series.TLSConfig_ (conf i)))))
                w0 Hca Hfile Hpem) as Hnone.
  rewrite Hcfg in Hnone. injection Hnone as -> ->. cbn -[base_options] in Hrun.
  rewrite Hdial in Hrun. destruct Hrun as (w2 & Ho & Ht & Hrun).
  assert (Hin : fresh w ∈ open w2)
    by (rewrite Ho; apply elem_of_union_l; by apply elem_of_singleton).
  destruct (storepb_TranslatePromMatchers env (series.Matchers params)) as [ms [e0 |]].
  { exists (None, Some e0), w2, []. by rewrite Ht. }
  simpl in Hrun.
  destruct (remote_Series env ctx (Read_request env params ms)) as [s [e0 |]];
    eexists _, _, _; (split; [exact Hrun |]); simpl;
    (split; [exact Hin |]); by rewrite wire_snoc, Ht, <- app_assoc.
Qed.

Lemma Read_dials_despite_empty_CA_bundle_witness :
  let careless : Series :=
    {| logger := Demo.log; conf := Demo.store_conf "notes.txt" "" "" "" |} in
  ∃ r w' evs,
    Read (Demo.env (Some Demo.warned, None)) careless Demo.background
      (Demo.params [Demo.job_prom]) Demo.w0 = (Returned r, w')
    ∧ fresh Demo.w0 ∈ open w'
    ∧ wire (trace w')
      = wire (trace Demo.w0) ++ EvDial (fresh Demo.w0) "store:10901" :: evs.
Proof.
  intros careless.
  apply (Read_dials_despite_empty_CA_bundle (Demo.env (Some Demo.warned, None)) careless);
    [discriminate | reflexivity | reflexivity | reflexivity].
Defined.

(** X10. The connection that a successful [Read] dials is set up from the
    configuration: the dial options are the three fixed ones followed by
    the transport credentials, and a TLS configuration inside them has the
    roots of [CAFile] (or the system pool), the client pair of [CertFile]
    and [KeyFile], and skips verification exactly when
    [InsecureSkipVerify] is set. *)
Theorem Read_dials_with_configured_TLS env i ctx params w it e w' :
  Read env i ctx params w = (Returned (Some it, e), w') →
  ∃ cfg,
    dial_failure env ctx (series.Endpoint (conf i))
      (base_options NoopTracer ++ [grpc.WithTransportCredentials cfg]) = None
    ∧ ∀ c, cfg = Some c →
           c = described_config env
                 (series.CertFile (series.TLSConfig_ (conf i)))
                 (series.KeyFile (series.TLSConfig_ (conf i)))
                 (series.CAFile (series.TLSConfig_ (conf i)))
                 (series.InsecureSkipVerify (series.TLSConfig_ (conf i))).
Proof.
  intros Hread.
  destruct (Read_stages env i ctx params w)
    as (opts & e1 & w1 & Hopts & _ & _ & _ & Hrun).
  rewrite Hread in Hrun.
  destruct e1 as [e0 |]; [discriminate |].
  apply InsecureClient_result in Hopts as (cfg & w0 & Hcfg & ->).
  cbn -[base_options] in Hrun.
  destruct (dial_failure env ctx (series.Endpoint (conf i)) _) eqn:Hdial;
    [discriminate |].
  exists cfg. split; [exact Hdial |]. intros c ->.
  apply newCustomClientConfig_fields in Hcfg as (_ & Hroots & Hskip & Hcerts & Hname).
  rewrite negb_involutive in Hskip.
  destruct c. unfold described_config. simpl in *. by subst.
Qed.

Lemma Read_dials_with_configured_TLS_witness :
  let strict : Series :=
    {| logger := Demo.log;
       conf := Demo.store_conf "ca.pem" "client.crt" "client.key" "" |} in
  ∃ cfg,
    dial_failure (Demo.env (Some Demo.warned, None)) Demo.background "store:10901"
      (base_options NoopTracer ++ [grpc.WithTransportCredentials cfg]) = None
    ∧ ∀ c, cfg = Some c →
           c = described_config (Demo.env (Some Demo.warned, None))
                 "client.crt" "client.key" "ca.pem" false.
Proof.
  intros strict.
  eapply (Read_dials_with_configured_TLS (Demo.env (Some Demo.warned, None)) strict
            Demo.background (Demo.params [Demo.job_prom]) Demo.w0).
  reflexivity.
Defined.

(** ** More on the cursor *)

(** One call of [Next]: what it leaves alone. *)
Lemma Next_frame it b it' :
  iterator.Next it = Returned (b, it') →
  iterator.conn it' = iterator.conn it
  ∧ iterator.ctx it' = iterator.ctx it
  ∧ iterator.mint it' = iterator.mint it
  ∧ iterator.maxt it' = iterator.maxt it
  ∧ ∃ c c',
      iterator.client it = Some c ∧ iterator.client it' = Some c'
      ∧ storepb.closeSend c' = storepb.closeSend c
      ∧ storepb.incoming c' = drop 1 (storepb.incoming c).
Proof.
  unfold iterator.Next, storepb.Recv.
  destruct (iterator.client it) as [c |]; [| discriminate].
  destruct (storepb.incoming c) as [| [r | e] rest] eqn:Hin; simpl;
    repeat go_case; intros [= <- <-]; simpl;
    repeat (split; [reflexivity |]); eexists _, _;
    (split; [reflexivity |]); (split; [reflexivity |]); simpl; by rewrite ?Hin.
Qed.

(** Any number of calls of [Next]: the connection and the answer of
    [CloseSend] stay. *)
Lemma advances_frame it it' :
  advances it it' →
  iterator.conn it' = iterator.conn it
  ∧ ∀ c, iterator.client it = Some c →
         ∃ c', iterator.client it' = Some c'
               ∧ storepb.closeSend c' = storepb.closeSend c.
Proof.
  induction 1 as [it | it b it1 it' Hnext _ [IHconn IHclient]].
  - split; [reflexivity |]. eauto.
  - apply Next_frame in Hnext as (Hconn & _ & _ & _ & c0 & c1 & Hc0 & Hc1 & Hcs & _).
    split; [congruence |]. intros c Hc.
    destruct (IHclient c1 Hc1) as (c' & Hc' & Hcs').
    exists c'. split; [exact Hc' |]. congruence.
Qed.

(** X11. However often [Next] is called and whatever it answers, the
    cursor keeps its connection, its context and its time bounds, the
    stream keeps its [CloseSend] answer, and what is still to come on the
    stream is a suffix of what was to come before. *)
Theorem advances_keeps_cursor it it' :
  advances it it' →
  iterator.conn it' = iterator.conn it
  ∧ iterator.ctx it' = iterator.ctx it
  ∧ iterator.mint it' = iterator.mint it
  ∧ iterator.maxt it' = iterator.maxt it
  ∧ ∀ c, iterator.client it = Some c →
         ∃ c' n,
           iterator.client it' = Some c'
           ∧ storepb.closeSend c' = storepb.closeSend c
           ∧ storepb.incoming c' = drop n (storepb.incoming c).
Proof.
  induction 1 as [it | it b it1 it' Hnext _ (IHconn & IHctx & IHmint & IHmaxt & IHclient)].
  - repeat (split; [reflexivity |]). intros c Hc. by exists c, 0.
  - apply Next_frame in Hnext
      as (Hconn & Hctx & Hmint & Hmaxt & c0 & c1 & Hc0 & Hc1 & Hcs & Hin).
    repeat (split; [congruence |]). intros c Hc.
    destruct (IHclient c1 Hc1) as (c' & n & Hc' & Hcs' & Hin').
    exists c', (1 + n). split; [exact Hc' |]. split; [congruence |].
    assert (c0 = c) as -> by congruence.
    by rewrite Hin', Hin, drop_drop.
Qed.

Lemma advances_keeps_cursor_witness :
  let it0 : iterator.t :=
    {| iterator.ctx := Demo.background; iterator.conn := Some 3;
       iterator.client := Some Demo.warned; iterator.currentSeries := None;
       iterator.mint := 1000; iterator.maxt := 5000; iterator.err := None |} in
  ∃ it2,
    iterator.conn it2 = Some 3
    ∧ iterator.mint it2 = 1000%Z
    ∧ ∃ c' n, iterator.client it2 = Some c'
              ∧ storepb.closeSend c' = None
              ∧ storepb.incoming c' = drop n (storepb.incoming Demo.warned).
Proof.
  intros it0.
  assert (Hadv : ∃ it2, advances it0 it2
                        ∧ iterator.currentSeries it2 = Some Demo.up).
  { eexists. split.
    - eapply advances_Next; [reflexivity |].
      eapply advances_Next; [reflexivity |]. apply advances_here.
    - reflexivity. }
  destruct Hadv as (it2 & Hadv & _). exists it2.
  destruct (advances_keeps_cursor it0 it2 Hadv) as (Hconn & _ & Hmint & _ & Hclient).
  split; [exact Hconn |]. split; [exact Hmint |].
  exact (Hclient Demo.warned eq_refl).
Defined.

(** X12. [Next] never clears a recorded error: after a call, [Err] is what
    it was, unless this call ran into a receive error other than [io.EOF],
    which it then records (answering false).  In particular an answer of
    true does not mean that [Err] is nil. *)
Theorem Next_never_clears_Err it c b it' :
  iterator.client it = Some c →
  iterator.Next it = Returned (b, it') →
  (iterator.Err it' = iterator.Err it
   ∨ (b = false
      ∧ ∃ e, (storepb.Recv c).1.2 = Some e ∧ e ≠ io_EOF ∧ iterator.Err it' = Some e))
  ∧ (b = true → iterator.Err it' = iterator.Err it)
  ∧ (iterator.Err it ≠ None → iterator.Err it' ≠ None).
Proof.
  intros Hc. unfold iterator.Next, iterator.Err. rewrite Hc.
  destruct (storepb.Recv c) as [[resp rerr] c']. simpl.
  destruct (bool_decide (rerr = Some io_EOF)) eqn:Heof.
  - intros [= <- <-]. simpl. auto.
  - apply bool_decide_eq_false in Heof.
    destruct rerr as [e |]; simpl; intros [= <- <-]; simpl.
    + split; [| done]. right. split; [done |]. exists e. split; [done |].
      split; [congruence | done].
    + auto.
Qed.

Lemma Next_never_clears_Err_witness :
  let failed : iterator.t :=
    {| iterator.ctx := Demo.background; iterator.conn := Some 0;
       iterator.client := Some Demo.warned; iterator.currentSeries := None;
       iterator.mint := 1000; iterator.maxt := 5000;
       iterator.err := Some (foreign "rpc error: code = Unavailable") |} in
  ∃ it',
    iterator.Next failed = Returned (true, it')
    ∧ iterator.Err it' = Some (foreign "rpc error: code = Unavailable").
Proof.
  intros failed. eexists. split; [reflexivity |].
  eapply (proj1 (proj2 (Next_never_clears_Err failed Demo.warned true _
                          eq_refl eq_refl))).
  reflexivity.
Defined.

(** X13. On a cursor straight from [Read], [At] panics: no series is
    current before the first [Next]. *)
Theorem At_before_Next_panics
    {chunkSeries labels_Labels : Type}
    (newChunkSeries :
       labels_Labels → list storepb.AggrChunk → Z → Z → list storepb.Aggr → chunkSeries)
    (LabelsToPromLabels : list storepb.Label → labels_Labels)
    env i ctx params w it e w' :
  Read env i ctx params w = (Returned (Some it, e), w') →
  iterator.At newChunkSeries LabelsToPromLabels it = Panicked.
Proof.
  intros (_ & _ & Hcur & _)%Read_cursor_state. unfold iterator.At. by rewrite Hcur.
Qed.

Lemma At_before_Next_panics_witness :
  ∃ it w',
    Read (Demo.env (Some Demo.warned, None)) Demo.reader Demo.background
      (Demo.params [Demo.job_prom]) Demo.w0 = (Returned (Some it, None), w')
    ∧ iterator.At Demo.newChunkSeries Demo.LabelsToPromLabels it = Panicked.
Proof.
  eexists _, _. split; [reflexivity |].
  eapply (At_before_Next_panics Demo.newChunkSeries Demo.LabelsToPromLabels
            (Demo.env (Some Demo.warned, None)) Demo.reader Demo.background
            (Demo.params [Demo.job_prom]) Demo.w0).
  reflexivity.
Defined.

(** X14. [Read], [Next] and [At] together: when the first frame of the
    stream is a series, the first [Next] on the cursor from [Read] answers
    true, and [At] then builds the chunk series of that frame: its labels
    converted, its chunks, the time bounds of the query as
    [timestamp.FromTime] gives them, and the aggregates count and sum. *)
Theorem Read_Next_At
    {chunkSeries labels_Labels : Type}
    (newChunkSeries :
       labels_Labels → list storepb.AggrChunk → Z → Z → list storepb.Aggr → chunkSeries)
    (LabelsToPromLabels : list storepb.Label → labels_Labels)
    env i ctx params w it e w' c sr rest :
  Read env i ctx params w = (Returned (Some it, e), w') →
  iterator.client it = Some c →
  storepb.incoming c = storepb.Frame (storepb.Result_Series sr) :: rest →
  ∃ it1,
    iterator.Next it = Returned (true, it1)
    ∧ iterator.Err it1 = None
    ∧ iterator.At newChunkSeries LabelsToPromLabels it1
      = Returned (newChunkSeries (LabelsToPromLabels (storepb.Labels sr))
                    (storepb.Chunks sr)
                    (timestamp_FromTime env (series.MinTime params))
                    (timestamp_FromTime env (series.MaxTime params))
                    [storepb.Aggr_COUNT; storepb.Aggr_SUM]).
Proof.
  intros Hread Hc Hin.
  destruct (Read_outcomes env i ctx params w) as (r & w1 & Heq & Hout).
  rewrite Hread in Heq. injection Heq as <- <-.
  inversion Hout; subst. simpl in Hc. subst.
  unfold iterator.Next, storepb.Recv. simpl. rewrite Hin. simpl.
  eexists. split; [reflexivity |]. split; reflexivity.
Qed.

Lemma Read_Next_At_witness :
  let single : storepb.Store_SeriesClient :=
    {| storepb.incoming := [storepb.Frame (storepb.Result_Series Demo.up)];
       storepb.closeSend := None |} in
  ∃ it w' it1,
    Read (Demo.env (Some single, None)) Demo.reader Demo.background
      (Demo.params [Demo.job_prom]) Demo.w0 = (Returned (Some it, None), w')
    ∧ iterator.Next it = Returned (true, it1)
    ∧ iterator.At Demo.newChunkSeries Demo.LabelsToPromLabels it1
      = Returned {| Demo.lset := [("__name__", "up")];
                    Demo.chunks := ["c1"; "c2"];
                    Demo.cs_mint := 1000;
                    Demo.cs_maxt := 5000;
                    Demo.aggrs := [storepb.Aggr_COUNT; storepb.Aggr_SUM] |}.
Proof.
  intros single. eexists _, _.
  destruct (Read_Next_At Demo.newChunkSeries Demo.LabelsToPromLabels
              (Demo.env (Some single, None)) Demo.reader Demo.background
              (Demo.params [Demo.job_prom]) Demo.w0 _ _ _ single Demo.up []
              eq_refl eq_refl eq_refl) as (it1 & Hnext & _ & Hat).
  exists it1. split; [reflexivity |]. split; [exact Hnext | exact Hat].
Defined.

(** X15. The whole life of a cursor: after a successful [Read], any number
    of calls of [Next] (to the end of the stream, to an error, or fewer),
    [Close] on a stream whose half-close succeeds returns nil and releases
    the connection that [Read] dialled; the other connections are left as
    they were. *)
Theorem Read_iterate_Close env i ctx params w it e w1 it' c :
  Read env i ctx params w = (Returned (Some it, e), w1) →
  iterator.client it = Some c →
  storepb.closeSend c = None →
  advances it it' →
  ∃ w2,
    iterator.Close it' w1 = (Returned None, w2)
    ∧ (fresh w ∉ open w2)
    ∧ open w2 = open w1 ∖ {[fresh w]}
    ∧ trace w2 = trace w1 ++ [EvCloseSend; EvConnClose (fresh w)].
Proof.
  intros (_ & _ & _ & Hconn & Hopen)%Read_cursor_state Hc Hcs Hadv.
  apply advances_frame in Hadv as (Hconn' & Hclient).
  destruct (Hclient c Hc) as (c' & Hc' & Hcs').
  destruct (Close_releases it' c' (fresh w) w1) as (w2 & Hclose & Ho & Hnot & Ht);
    [done | congruence | congruence | done |].
  eauto.
Qed.

Lemma Read_iterate_Close_witness :
  ∃ it w1 it2 w2,
    Read (Demo.env (Some Demo.warned, None)) Demo.reader Demo.background
      (Demo.params [Demo.job_prom]) Demo.w0 = (Returned (Some it, None), w1)
    ∧ advances it it2
    ∧ iterator.Close it2 w1 = (Returned None, w2)
    ∧ (fresh Demo.w0 ∉ open w2)
    ∧ open w2 = open w1 ∖ {[fresh Demo.w0]}
    ∧ trace w2 = trace w1 ++ [EvCloseSend; EvConnClose (fresh Demo.w0)].
Proof.
  edestruct (Read_iterate_Close (Demo.env (Some Demo.warned, None)) Demo.reader
               Demo.background (Demo.params [Demo.job_prom]) Demo.w0)
    as (w2 & Hclose & Hrest);
    [ reflexivity | reflexivity | reflexivity
    | eapply advances_Next; [reflexivity |];
      eapply advances_Next; [reflexivity |]; apply advances_here
    | ].
  eexists _, _, _, w2. split; [reflexivity |].
  split; [| split; [exact Hclose | exact Hrest]].
  eapply advances_Next; [reflexivity |].
  eapply advances_Next; [reflexivity |]. apply advances_here.
Defined.

(** X16. [Close] opens nothing, and a nil answer is a guarantee: [Close]
    returns nil only if the half-close succeeded and the connection of the
    cursor was open, and that connection is then released. *)
Theorem Close_nil_means_released it w :
  open (iterator.Close it w).2 ⊆ open w
  ∧ ∀ w', iterator.Close it w = (Returned None, w') →
          ∃ s c,
            iterator.client it = Some s ∧ storepb.closeSend s = None
            ∧ iterator.conn it = Some c
            ∧ c ∈ open w
            ∧ (c ∉ open w')
            ∧ open w' = open w ∖ {[c]}.
Proof.
  unfold iterator.Close, CloseSend, ClientConn_Close.
  destruct (iterator.client it) as [s |]; go_run; [| split; [done | discriminate]].
  destruct (storepb.closeSend s) as [e0 |] eqn:Hcs; simpl;
    [split; [done | discriminate] |].
  destruct (iterator.conn it) as [c |]; simpl; [| split; [done | discriminate]].
  destruct (bool_decide (c ∈ open w)) eqn:Hopen; simpl;
    [| split; [done | discriminate]].
  apply bool_decide_eq_true in Hopen. split.
  - apply subseteq_difference_l. done.
  - intros w' [= <-]. simpl. exists s, c.
    do 4 (split; [done |]). split; [| reflexivity].
    intros [_ Hc]%elem_of_difference. apply Hc. by apply elem_of_singleton.
Qed.

Lemma Close_nil_means_released_witness :
  let it : iterator.t :=
    {| iterator.ctx := Demo.background; iterator.conn := Some 0;
       iterator.client := Some Demo.warned; iterator.currentSeries := None;
       iterator.mint := 1000; iterator.maxt := 5000; iterator.err := None |} in
  let w : World := {| open := {[0]}; fresh := 1; trace := [] |} in
  ∃ w' s c,
    iterator.Close it w = (Returned None, w')
    ∧ iterator.client it = Some s ∧ storepb.closeSend s = None
    ∧ iterator.conn it = Some c
    ∧ c ∈ open w
    ∧ (c ∉ open w')
    ∧ open w' = open w ∖ {[c]}.
Proof.
  intros it w.
  assert (Hclose : ∃ w', iterator.Close it w = (Returned None, w')).
  { unfold iterator.Close, CloseSend, ClientConn_Close. go_run.
    rewrite bool_decide_eq_true_2 by (by apply elem_of_singleton). simpl. eauto. }
  destruct Hclose as (w' & Hclose).
  destruct (proj2 (Close_nil_means_released it w) w' Hclose) as (s & c & H).
  exists w', s, c. split; [exact Hclose | exact H].
Defined.

(** X17. A [Next] that answers false (end of stream or receive error)
    leaves the current series in place: [At] answers after it what it
    answered before. *)
Theorem Next_false_keeps_At
    {chunkSeries labels_Labels : Type}
    (newChunkSeries :
       labels_Labels → list storepb.AggrChunk → Z → Z → list storepb.Aggr → chunkSeries)
    (LabelsToPromLabels : list storepb.Label → labels_Labels)
    it it' :
  iterator.Next it = Returned (false, it') →
  iterator.currentSeries it' = iterator.currentSeries it
  ∧ iterator.At newChunkSeries LabelsToPromLabels it'
    = iterator.At newChunkSeries LabelsToPromLabels it.
Proof.
  unfold iterator.Next, iterator.At.
  destruct (iterator.client it) as [c |]; [| discriminate].
  destruct (storepb.Recv c) as [[resp rerr] c'].
  repeat go_case; intros [= <-]; done.
Qed.

Lemma Next_false_keeps_At_witness :
  let last : iterator.t :=
    {| iterator.ctx := Demo.background; iterator.conn := Some 0;
       iterator.client := Some {| storepb.incoming := []; storepb.closeSend := None |};
       iterator.currentSeries := Some Demo.up;
       iterator.mint := 1000; iterator.maxt := 5000; iterator.err := None |} in
  ∃ it',
    iterator.Next last = Returned (false, it')
    ∧ iterator.At Demo.newChunkSeries Demo.LabelsToPromLabels it'
      = iterator.At Demo.newChunkSeries Demo.LabelsToPromLabels last.
Proof.
  intros last. eexists. split; [reflexivity |].
  eapply (proj2 (Next_false_keeps_At Demo.newChunkSeries Demo.LabelsToPromLabels
                   last _ eq_refl)).
Defined.
